(** * The peer session manager of go-bsv-middlewares

    A shallow embedding of [pkg/temporary/sessionmanager/session_manager_mock.go]
    and the properties of its two indexes and of its best-session selection.

    Conventions of the embedding:
    - a Go [map[string]V] is a [gmap string V]; the maps of a manager are the
      ones made by [NewSessionManager], so they are never nil;
    - a [*string] field is read but never written through by this package: it
      is the optional string it points at, [None] for nil;
    - a method is a state transformer that either returns or panics; a panic
      keeps the state reached when it was raised;
    - every exported method takes [mu] on entry and releases it by [defer], so
      within one goroutine a call is one transformer of the two maps;
    - a [*PeerSession] result is an address into a heap of record cells;
    - the module [Ref] embeds [AddSession] and the reads once more with the
      [*string] fields as addresses of string cells, for what a caller can
      do through the pointers of a record it was handed. *)

From Stdlib Require Import ZArith.
From stdpp Require Import base option list strings gmap.

Set Default Proof Using "Type".

(** ** Go control flow: returning or panicking over a threaded state *)

Inductive runtime_error : Type :=
| NilDereference.

Inductive outcome (Σ A : Type) : Type :=
| Returns (a : A) (σ : Σ)
| Panics (e : runtime_error) (σ : Σ).
Arguments Returns {Σ A} a σ.
Arguments Panics {Σ A} e σ.

Definition go (Σ A : Type) : Type := Σ → outcome Σ A.

#[global] Instance go_ret {Σ} : MRet (go Σ) := λ A a σ, Returns a σ.
#[global] Instance go_bind {Σ} : MBind (go Σ) := λ A B f c σ,
  match c σ with
  | Returns a σ' => f a σ'
  | Panics e σ' => Panics e σ'
  end.

Definition get {Σ} : go Σ Σ := λ σ, Returns σ σ.
Definition modify {Σ} (f : Σ → Σ) : go Σ unit := λ σ, Returns () (f σ).

(** [*p] for an optional pointer: a nil pointer panics. *)
Definition deref {Σ A} (p : option A) : go Σ A := λ σ,
  match p with
  | Some a => Returns a σ
  | None => Panics NilDereference σ
  end.

(** [for _, x := range xs { acc = body x acc }] *)
Fixpoint for_range {Σ A B} (xs : list A) (body : A → B → go Σ B) (acc : B) : go Σ B :=
  match xs with
  | [] => mret acc
  | x :: rest => acc' ← body x acc; for_range rest body acc'
  end.

Definition result {Σ A} (o : outcome Σ A) : option A :=
  match o with
  | Returns a _ => Some a
  | Panics _ _ => None
  end.

Definition state_of {Σ A} (o : outcome Σ A) : Σ :=
  match o with
  | Returns _ σ => σ
  | Panics _ σ => σ
  end.

(** [time.Time] as an instant on the time line; [t.After(u)]. *)
Definition Time : Type := Z.
Definition After (t u : Time) : bool := bool_decide (u < t)%Z.

(** ** [removeSessionNonce]: filtering a slice inside its own backing array

    [newSlice := slice[:0]] has length 0 and the backing array of [slice];
    every [append] stays within the capacity and writes the array in place
    at index [len(newSlice)], while the range loop reads the array at [i]. *)

Definition removeSessionNonce_body (target : string) (i : nat)
    (st : list string * nat) : list string * nat :=
  let '(array, n) := st in
  match array !! i with
  | Some str =>
      if decide (str ≠ target) then (<[n := str]> array, S n) else (array, n)
  | None => (array, n)
  end.

Fixpoint removeSessionNonce_loop (target : string) (todo i : nat)
    (st : list string * nat) : list string * nat :=
  match todo with
  | 0 => st
  | S todo' =>
      removeSessionNonce_loop target todo' (S i) (removeSessionNonce_body target i st)
  end.

Definition removeSessionNonce (slice : list string) (target : string) : list string :=
  let '(array, n) := removeSessionNonce_loop target (length slice) 0 (slice, 0) in
  take n array.

Section SessionManager.

(** The handshake fields the manager carries through without looking at them. *)
Context {Extra : Type}.

(** Modelled from the spec: the declaration of the [PeerSession] struct is not
    part of the sources at hand.  The spec lists an optional session handle, an
    optional peer identity key, the authentication flag, the time of the last
    update, and further fields that are opaque to the manager. *)
Record PeerSession : Type := mkPeerSession {
  SessionNonce : option string;
  PeerIdentityKey : option string;
  IsAuthenticated : bool;
  LastUpdate : Time;
  Other : Extra
}.

Record SessionManager : Type := mkSessionManager {
  (* sessions is a map of sessionNonce to a Session *)
  sessions : gmap string PeerSession;
  (* identityKeyToSessions is a map of peerIdentityKey to a list of sessionNonce's *)
  identityKeyToSessions : gmap string (list string)
}.

Definition set_sessions (f : gmap string PeerSession → gmap string PeerSession)
    (m : SessionManager) : SessionManager :=
  mkSessionManager (f (sessions m)) (identityKeyToSessions m).

Definition set_identityKeyToSessions
    (f : gmap string (list string) → gmap string (list string))
    (m : SessionManager) : SessionManager :=
  mkSessionManager (sessions m) (f (identityKeyToSessions m)).

Definition NewSessionManager : SessionManager := mkSessionManager ∅ ∅.

Definition addSessionByIdentityKey (session : PeerSession) : go SessionManager unit :=
  key ← deref (PeerIdentityKey session);
  m ← get;
  match identityKeyToSessions m !! key with
  | Some sessionNonces =>
      nonce ← deref (SessionNonce session);
      modify (set_identityKeyToSessions <[key := sessionNonces ++ [nonce]]>)
  | None =>
      nonce ← deref (SessionNonce session);
      modify (set_identityKeyToSessions <[key := [nonce]]>)
  end.

Definition AddSession (session : PeerSession) : go SessionManager unit :=
  match SessionNonce session with
  | Some nonce => modify (set_sessions <[nonce := session]>)
  | None => mret ()
  end;;
  match PeerIdentityKey session with
  | Some _ => addSessionByIdentityKey session
  | None => mret ()
  end.

Definition UpdateSession (session : PeerSession) : go SessionManager unit :=
  AddSession session.

Definition RemoveSession (session : PeerSession) : go SessionManager unit :=
  match SessionNonce session with
  | Some nonce => modify (set_sessions (delete nonce))
  | None => mret ()
  end;;
  match PeerIdentityKey session with
  | Some key =>
      m ← get;
      match identityKeyToSessions m !! key with
      | None => mret ()
      | Some sessionNonces =>
          target ← deref (SessionNonce session);
          let updatedNonces := removeSessionNonce sessionNonces target in
          if decide (length updatedNonces = 0)
          then modify (set_identityKeyToSessions (delete key))
          else modify (set_identityKeyToSessions <[key := updatedNonces]>)
      end
  | None => mret ()
  end.

Definition HasSession (identifier : string) : go SessionManager bool :=
  m ← get;
  match sessions m !! identifier with
  | Some _ => mret true
  | None =>
      match identityKeyToSessions m !! identifier with
      | None => mret false
      | Some nonces => mret (bool_decide (0 < length nonces))
      end
  end.

(** *** Reading: the cells behind [*PeerSession] values

    [&session] makes the local copy [session] escape: a fresh cell receives
    the copy and its address is the pointer. *)

Local Abbreviation heap := (list PeerSession).
Local Abbreviation world := (SessionManager * list PeerSession)%type.

Definition new (v : PeerSession) : go world nat := λ w,
  Returns (length w.2) (w.1, w.2 ++ [v]).

Definition load (p : nat) : go world PeerSession := λ w,
  match w.2 !! p with
  | Some v => Returns v w
  | None => Panics NilDereference w
  end.

Definition getBestSession_body (sessionNonce : string) (bestSession : option nat)
    : go world (option nat) :=
  w ← get;
  match sessions w.1 !! sessionNonce with
  | None => mret bestSession
  | Some session =>
      match bestSession with
      | None => p ← new session; mret (Some p)
      | Some b =>
          best ← load b;
          if IsAuthenticated session && negb (IsAuthenticated best)
          then p ← new session; mret (Some p)
          else
            if bool_decide (IsAuthenticated session = IsAuthenticated best)
               && After (LastUpdate session) (LastUpdate best)
            then p ← new session; mret (Some p)
            else mret bestSession
      end
  end.

Definition getBestSession (sessionNonces : list string) : go world (option nat) :=
  for_range sessionNonces getBestSession_body None.

Definition GetSession (identifier : string) : go world (option nat) :=
  w ← get;
  match sessions w.1 !! identifier with
  | Some session => p ← new session; mret (Some p)
  | None =>
      match identityKeyToSessions w.1 !! identifier with
      | None => mret None
      | Some sessionNonces => getBestSession sessionNonces
      end
  end.

End SessionManager.

Arguments PeerSession : clear implicits.
Arguments SessionManager : clear implicits.
Abbreviation heap Extra := (list (PeerSession Extra)).
Abbreviation world Extra := (SessionManager Extra * list (PeerSession Extra))%type.

(** ** The selection policy in the words of the specification

    Prefer the candidate with [isAuthenticated = true] over one with [false];
    with equal authentication status prefer the later [lastUpdate]; with equal
    timestamps retain the earlier-encountered candidate. *)

Section Policy.
Context {Extra : Type}.
Implicit Types (m : SessionManager Extra) (h : heap Extra).
Implicit Types (s b earlier later : PeerSession Extra).
Implicit Types (v : option (PeerSession Extra)) (r : option nat).
Implicit Types (cs : list (PeerSession Extra)).

Definition prefer earlier later : PeerSession Extra :=
  match IsAuthenticated earlier, IsAuthenticated later with
  | true, false => earlier
  | false, true => later
  | _, _ =>
      if bool_decide (LastUpdate earlier < LastUpdate later)%Z then later else earlier
  end.

(** Resolve each handle to its session record, skip the stale ones. *)
Definition candidates m (handles : list string) : list (PeerSession Extra) :=
  omap (λ handle, sessions m !! handle) handles.

Definition best_candidate cs : option (PeerSession Extra) :=
  match cs with
  | [] => None
  | c :: rest => Some (foldl prefer c rest)
  end.

Definition pointee h r : option (PeerSession Extra) :=
  match r with
  | Some p => h !! p
  | None => None
  end.

Definition valid h r : Prop :=
  match r with
  | Some p => p < length h
  | None => True
  end.

(** The candidate kept so far, continued over the remaining candidates. *)
Definition select v cs : option (PeerSession Extra) :=
  match v with
  | Some b => Some (foldl prefer b cs)
  | None => best_candidate cs
  end.

(** One candidate more on the value side. *)
Definition advance m (handle : string) v : option (PeerSession Extra) :=
  match sessions m !! handle with
  | None => v
  | Some s => Some (match v with Some b => prefer b s | None => s end)
  end.

(** The record behind an identifier, by handle first and by identity next. *)
Definition found m (identifier : string) : option (PeerSession Extra) :=
  match sessions m !! identifier with
  | Some s => Some s
  | None =>
      match identityKeyToSessions m !! identifier with
      | None => None
      | Some handles => best_candidate (candidates m handles)
      end
  end.

(** The record a [GetSession] result stands for: the cell it points at. *)
Definition retrieved (o : outcome (world Extra) (option nat)) : option (PeerSession Extra) :=
  match o with
  | Returns (Some p) w => w.2 !! p
  | _ => None
  end.

(** Every handle listed under an identity resolves in the handle index. *)
Definition consistent m : Prop :=
  ∀ key handles handle,
    identityKeyToSessions m !! key = Some handles →
    handle ∈ handles → is_Some (sessions m !! handle).

(** *** Sequences of calls that change the store *)

Inductive call : Type :=
| CallAdd (s : PeerSession Extra)
| CallUpdate (s : PeerSession Extra)
| CallRemove (s : PeerSession Extra).

Definition argument (c : call) : PeerSession Extra :=
  match c with
  | CallAdd s | CallUpdate s | CallRemove s => s
  end.

Definition perform (c : call) : go (SessionManager Extra) unit :=
  match c with
  | CallAdd s => AddSession s
  | CallUpdate s => UpdateSession s
  | CallRemove s => RemoveSession s
  end.

Fixpoint run (cs : list call) : go (SessionManager Extra) unit :=
  match cs with
  | [] => mret ()
  | c :: rest => perform c;; run rest
  end.

End Policy.

(** ** Concrete sessions, with nothing in the opaque fields *)

Definition session (handle key : option string) (authenticated : bool)
    (updated : Time) : PeerSession unit :=
  mkPeerSession handle key authenticated updated ().
Arguments session handle key authenticated updated%_Z.

Definition after (calls : list (@call unit)) : SessionManager unit :=
  state_of (run calls NewSessionManager).

(** ** Further notions for the session manager *)

Section Ranking.
Context {Extra : Type}.
Implicit Types (m : SessionManager Extra) (s c : PeerSession Extra).

(** [s] is at least as good a choice as [c]: authenticated if [c] is, and not
    older than [c] when both have the same authentication status. *)
Definition outranks s c : Prop :=
  (IsAuthenticated c = true → IsAuthenticated s = true)
  ∧ (IsAuthenticated c = IsAuthenticated s → (LastUpdate c ≤ LastUpdate s)%Z).

(** No identity key is kept with an empty handle-set. *)
Definition no_empty_set m : Prop :=
  ∀ key handles, identityKeyToSessions m !! key = Some handles → handles ≠ [].

(** The handles of a list of sessions, in order. *)
Definition handles_of (ss : list (PeerSession Extra)) : list string :=
  omap SessionNonce ss.

End Ranking.

(** ** The mock wallet of package [mock]

    A method returns its Go pair of a value and an [error] (nil is [None]);
    the receiver is threaded as the state.  [validNonces] is the map made by
    [NewMockWallet]. *)

Inductive context_error : Type :=
| Canceled
| DeadlineExceeded.

Inductive error : Type :=
| ContextError (e : context_error)     (* what [ctx.Err()] reports *)
| ErrorNew (message : string).         (* [errors.New(message)] *)

(** A [context.Context], as far as the wallet looks at it: [ctx.Err()]. *)
Record context : Type := mkContext {
  Err : option error
}.

(** The string constants of package [mock] are declared in a file that is
    not among the sources; they are parameters of the model. *)
Record mock_constants : Type := mkMockConstants {
  IdentityKeyMock : string;
  DerivedKeyMock : string;
  MockSignature : string;
  MockNonce : string;
  ErrorNoPrivilege : string;
  ErrorKeyDeriver : string;
  ErrorMissingParams : string;
  ErrorInvalidInput : string
}.

(** [[]byte(s)] and [string(b)]. *)
Definition bytes : Type := list Ascii.ascii.
Definition bytes_of_string (s : string) : bytes := String.list_ascii_of_string s.
Definition string_of_bytes (b : bytes) : string := String.string_of_list_ascii b.

Record MockWallet : Type := mkMockWallet {
  identityKey : string;
  keyDeriver : bool;
  validNonces : gmap string bool
}.

Section MockWallet.
(** The types behind [ProtocolID] / [protocolID] and [wallet.Certificate]
    are declared outside the sources; the wallet only tests the former
    against nil and never builds the latter. *)
Context {Protocol Certificate : Type}.
Context (K : mock_constants).

(** The fields of [wallet.GetPublicKeyOptions] that [GetPublicKey] reads. *)
Record GetPublicKeyOptions : Type := mkGetPublicKeyOptions {
  Privileged : bool;
  IdentityKey : bool;
  ProtocolID : option Protocol;
  KeyID : string
}.

Definition NewMockWallet (enableKeyDeriver : bool) : MockWallet :=
  mkMockWallet (IdentityKeyMock K) enableKeyDeriver ∅.

Definition GetPublicKey (ctx : context) (options : GetPublicKeyOptions)
    : go MockWallet (string * option error) :=
  m ← get;
  match Err ctx with
  | Some e => mret (EmptyString, Some e)
  | None =>
      if Privileged options
      then mret (EmptyString, Some (ErrorNew (ErrorNoPrivilege K)))
      else
        if IdentityKey options
        then
          if negb (keyDeriver m)
          then mret (EmptyString, Some (ErrorNew (ErrorKeyDeriver K)))
          else mret (identityKey m, None)
        else
          if bool_decide (ProtocolID options = None)
             || bool_decide (KeyID options = EmptyString)
             || bool_decide (KeyID options = " "%string)
          then mret (EmptyString, Some (ErrorNew (ErrorMissingParams K)))
          else
            if negb (keyDeriver m)
            then mret (EmptyString, Some (ErrorNew (ErrorKeyDeriver K)))
            else mret (DerivedKeyMock K, None)
  end.

Definition CreateSignature (ctx : context) (data : bytes)
    (protocolID : option Protocol) (keyID counterparty : string)
    : go MockWallet (option bytes * option error) :=
  match Err ctx with
  | Some e => mret (None, Some e)
  | None =>
      if bool_decide (length data = 0)
         || bool_decide (keyID = EmptyString)
         || bool_decide (counterparty = EmptyString)
      then mret (None, Some (ErrorNew (ErrorInvalidInput K)))
      else mret (Some (bytes_of_string (MockSignature K)), None)
  end.

Definition VerifySignature (ctx : context) (data signature : bytes)
    (protocolID : option Protocol) (keyID counterparty : string)
    : go MockWallet (bool * option error) :=
  match Err ctx with
  | Some e => mret (false, Some e)
  | None => mret (bool_decide (string_of_bytes signature = MockSignature K), None)
  end.

Definition CreateNonce (ctx : context) : go MockWallet (string * option error) :=
  match Err ctx with
  | Some e => mret (EmptyString, Some e)
  | None =>
      modify (λ m, mkMockWallet (identityKey m) (keyDeriver m)
                     (<[MockNonce K := true]> (validNonces m)));;
      mret (MockNonce K, None)
  end.

Definition VerifyNonce (ctx : context) (nonce : string)
    : go MockWallet (bool * option error) :=
  m ← get;
  match Err ctx with
  | Some e => mret (false, Some e)
  | None => mret (bool_decide (is_Some (validNonces m !! nonce)), None)
  end.

Definition ListCertificates (ctx : context) (certifiers types : list string)
    : go MockWallet (option (list Certificate) * option error) :=
  match Err ctx with
  | Some e => mret (None, Some e)
  | None => mret (Some [], None)
  end.

Definition ProveCertificate (ctx : context) (certificate : Certificate)
    (verifier : string) (fieldsToReveal : list string)
    : go MockWallet (option (gmap string string) * option error) :=
  match Err ctx with
  | Some e => mret (None, Some e)
  | None => mret (Some ∅, None)
  end.

(** [n] successful or failed [CreateNonce] calls in a row. *)
Definition after_nonces (ctx : context) (n : nat) (m : MockWallet) : MockWallet :=
  Nat.iter n (λ w, state_of (CreateNonce ctx w)) m.

End MockWallet.

Arguments GetPublicKeyOptions : clear implicits.

(** ** Removals that leave no stale handle *)

Section Removal.
Context {Extra : Type}.
Implicit Types (m : SessionManager Extra) (s : PeerSession Extra).

(** The handle of [s] is listed under no identity key but the one [s]
    carries: removing [s] then takes the handle out of every handle-set. *)
Definition removable s m : Prop :=
  ∀ handle key handles,
    SessionNonce s = Some handle →
    identityKeyToSessions m !! key = Some handles →
    handle ∈ handles → PeerIdentityKey s = Some key.

Definition permitted (c : @call Extra) m : Prop :=
  match c with
  | CallRemove s => removable s m
  | CallAdd _ | CallUpdate _ => True
  end.

(** Every [RemoveSession] of the sequence is made in a state where its
    session is [removable]; a call that panics leaves the state it found. *)
Fixpoint permitted_run (calls : list (@call Extra)) m : Prop :=
  match calls with
  | [] => True
  | c :: rest => permitted c m ∧ permitted_run rest (state_of (perform c m))
  end.

End Removal.

(** ** The store with its [*string] fields as pointers

    [PeerSession] holds [SessionNonce] and [PeerIdentityKey] as [*string]:
    a record copied out of the map shares the two strings with the record in
    the map.  Here the fields are addresses of string cells, for the
    functions that build the store and read it; the index keys are the
    strings found behind the pointers when [AddSession] runs.  A dangling
    address cannot arise in Go and is a panic of the model. *)

Module Ref.
Section Ref.
Context {Extra : Type}.

Record PeerSession : Type := mkPeerSession {
  SessionNonce : option nat;
  PeerIdentityKey : option nat;
  IsAuthenticated : bool;
  LastUpdate : Time;
  Other : Extra
}.

Record SessionManager : Type := mkSessionManager {
  sessions : gmap string PeerSession;
  identityKeyToSessions : gmap string (list string)
}.

(** The cells behind [*string] and behind [*PeerSession]. *)
Record memory : Type := mkMemory {
  strings : list string;
  records : list PeerSession
}.

Local Abbreviation world := (SessionManager * memory)%type.

Definition set_sessions (f : gmap string PeerSession → gmap string PeerSession)
    (w : world) : world :=
  (mkSessionManager (f (sessions w.1)) (identityKeyToSessions w.1), w.2).

Definition set_identityKeyToSessions
    (f : gmap string (list string) → gmap string (list string))
    (w : world) : world :=
  (mkSessionManager (sessions w.1) (f (identityKeyToSessions w.1)), w.2).

Definition NewSessionManager : SessionManager := mkSessionManager ∅ ∅.

(** [*p] for a [*string]. *)
Definition deref_string (p : option nat) : go world string :=
  a ← deref p;
  w ← get;
  deref (strings w.2 !! a).

(** [&session]: a fresh record cell receives the copy. *)
Definition new (v : PeerSession) : go world nat := λ w,
  Returns (length (records w.2))
    (w.1, mkMemory (strings w.2) (records w.2 ++ [v])).

Definition load (p : nat) : go world PeerSession :=
  w ← get;
  deref (records w.2 !! p).

(** [*p = v] for a [*PeerSession]; a field assignment [p.f = x] is the case
    where [v] is the record at [p] with [f] replaced. *)
Definition store (p : nat) (v : PeerSession) : go world unit :=
  modify (λ w, (w.1, mkMemory (strings w.2) (<[p := v]> (records w.2)))).

(** [*p.SessionNonce = v] and [*p.PeerIdentityKey = v] for a [*PeerSession]. *)
Definition store_string (field : PeerSession → option nat) (p : nat) (v : string)
    : go world unit :=
  session ← load p;
  a ← deref (field session);
  _ ← deref_string (Some a);
  modify (λ w, (w.1, mkMemory (<[a := v]> (strings w.2)) (records w.2))).

Definition addSessionByIdentityKey (session : PeerSession) : go world unit :=
  key ← deref_string (PeerIdentityKey session);
  w ← get;
  match identityKeyToSessions w.1 !! key with
  | Some sessionNonces =>
      nonce ← deref_string (SessionNonce session);
      modify (set_identityKeyToSessions <[key := sessionNonces ++ [nonce]]>)
  | None =>
      nonce ← deref_string (SessionNonce session);
      modify (set_identityKeyToSessions <[key := [nonce]]>)
  end.

Definition AddSession (session : PeerSession) : go world unit :=
  match SessionNonce session with
  | Some _ =>
      nonce ← deref_string (SessionNonce session);
      modify (set_sessions <[nonce := session]>)
  | None => mret ()
  end;;
  match PeerIdentityKey session with
  | Some _ => addSessionByIdentityKey session
  | None => mret ()
  end.

Definition UpdateSession (session : PeerSession) : go world unit :=
  AddSession session.

Definition HasSession (identifier : string) : go world bool :=
  w ← get;
  match sessions w.1 !! identifier with
  | Some _ => mret true
  | None =>
      match identityKeyToSessions w.1 !! identifier with
      | None => mret false
      | Some nonces => mret (bool_decide (0 < length nonces))
      end
  end.

Definition getBestSession_body (sessionNonce : string) (bestSession : option nat)
    : go world (option nat) :=
  w ← get;
  match sessions w.1 !! sessionNonce with
  | None => mret bestSession
  | Some session =>
      match bestSession with
      | None => p ← new session; mret (Some p)
      | Some b =>
          best ← load b;
          if IsAuthenticated session && negb (IsAuthenticated best)
          then p ← new session; mret (Some p)
          else
            if bool_decide (IsAuthenticated session = IsAuthenticated best)
               && After (LastUpdate session) (LastUpdate best)
            then p ← new session; mret (Some p)
            else mret bestSession
      end
  end.

Definition getBestSession (sessionNonces : list string) : go world (option nat) :=
  for_range sessionNonces getBestSession_body None.

Definition GetSession (identifier : string) : go world (option nat) :=
  w ← get;
  match sessions w.1 !! identifier with
  | Some session => p ← new session; mret (Some p)
  | None =>
      match identityKeyToSessions w.1 !! identifier with
      | None => mret None
      | Some sessionNonces => getBestSession sessionNonces
      end
  end.

(** The record a loop iteration keeps, on the records themselves. *)
Definition keep (best session : PeerSession) : PeerSession :=
  if IsAuthenticated session && negb (IsAuthenticated best) then session
  else if bool_decide (IsAuthenticated session = IsAuthenticated best)
          && After (LastUpdate session) (LastUpdate best)
       then session else best.

Definition advance (m : SessionManager) (v : option PeerSession) (handle : string)
    : option PeerSession :=
  match sessions m !! handle with
  | None => v
  | Some session =>
      Some (match v with Some best => keep best session | None => session end)
  end.

(** The stored record behind an identifier. *)
Definition found (m : SessionManager) (identifier : string) : option PeerSession :=
  match sessions m !! identifier with
  | Some session => Some session
  | None =>
      match identityKeyToSessions m !! identifier with
      | None => None
      | Some handles => foldl (advance m) None handles
      end
  end.

(** The record cell a [GetSession] result points at. *)
Definition retrieved (o : outcome world (option nat)) : option PeerSession :=
  match o with
  | Returns (Some p) w => records w.2 !! p
  | _ => None
  end.

Definition pointee (mem : memory) (r : option nat) : option PeerSession :=
  match r with
  | Some p => records mem !! p
  | None => None
  end.

Definition valid (mem : memory) (r : option nat) : Prop :=
  match r with
  | Some p => p < length (records mem)
  | None => True
  end.

End Ref.
Arguments PeerSession : clear implicits.
Arguments SessionManager : clear implicits.
Arguments memory : clear implicits.
End Ref.

(** What a reader sees of a record of [Ref]: the strings behind its two
    pointers, as they are in memory now. *)
Definition resolve {Extra : Type} (mem : Ref.memory Extra)
    (s : Ref.PeerSession Extra) : PeerSession Extra :=
  mkPeerSession
    (a ← Ref.SessionNonce s; Ref.strings mem !! a)
    (a ← Ref.PeerIdentityKey s; Ref.strings mem !! a)
    (Ref.IsAuthenticated s) (Ref.LastUpdate s) (Ref.Other s).

(** The session a [Ref.GetSession] result shows to its caller. *)
Definition seen {Extra : Type}
    (o : outcome (Ref.SessionManager Extra * Ref.memory Extra) (option nat))
    : option (PeerSession Extra) :=
  match o with
  | Returns (Some p) w => resolve w.2 <$> Ref.records w.2 !! p
  | _ => None
  end.

(** The store of [Ref] as a reader sees it while the strings stay as they
    are: every stored record with its two strings read. *)
Definition resolve_manager {Extra : Type} (mem : Ref.memory Extra)
    (m : Ref.SessionManager Extra) : SessionManager Extra :=
  mkSessionManager (resolve mem <$> Ref.sessions m) (Ref.identityKeyToSessions m).

(** ** [removeSessionNonce] computes a filter *)

Section RemoveSessionNonce.
Variable target : string.

Lemma removeSessionNonce_loop_inv (slice : list string) todo :
  ∀ i (array : list string) n,
    i + todo = length slice →
    length array = length slice →
    drop i array = drop i slice →
    n ≤ i →
    take n array = filter (λ str, str ≠ target) (take i slice) →
    ∃ array' n',
      removeSessionNonce_loop target todo i (array, n) = (array', n')
      ∧ take n' array' = filter (λ str, str ≠ target) slice.
Proof.
  induction todo as [|todo IH]; intros i array n Hlen Harr Hdrop Hn Htake.
  - exists array, n. split; [done|].
    rewrite Htake. f_equal. apply take_ge. lia.
  - assert (Hi : i < length slice) by lia.
    destruct (lookup_lt_is_Some_2 slice i Hi) as [str Hstr].
    assert (Harr_i : array !! i = Some str).
    { pose proof (lookup_drop array i 0) as Hl.
      rewrite Hdrop, lookup_drop, Nat.add_0_r in Hl. congruence. }
    assert (Hdrop' : drop (S i) array = drop (S i) slice).
    { replace (S i) with (i + 1) by lia. by rewrite <- !drop_drop, Hdrop. }
    assert (Hfilter : take (S i) slice = take i slice ++ [str])
      by (by apply take_S_r).
    simpl. unfold removeSessionNonce_body. rewrite Harr_i.
    destruct (decide (str ≠ target)) as [Hne|Heq].
    + apply IH; [lia | by rewrite length_insert | | lia |].
      * rewrite drop_insert_lt; [done | lia].
      * rewrite Hfilter, filter_app, filter_cons_True, filter_nil by done.
        rewrite <- Htake.
        rewrite (take_S_r _ _ str).
        -- rewrite take_insert_ge; [done | lia].
        -- apply list_lookup_insert_eq. lia.
    + apply IH; [lia | done | done | lia |].
      rewrite Hfilter, filter_app, filter_cons_False, filter_nil, app_nil_r by done.
      done.
Qed.

Lemma removeSessionNonce_filter (slice : list string) :
  removeSessionNonce slice target = filter (λ str, str ≠ target) slice.
Proof.
  unfold removeSessionNonce.
  destruct (removeSessionNonce_loop_inv slice (length slice) 0 slice 0)
    as (array' & n' & -> & Hres); done.
Qed.

Lemma removeSessionNonce_gone (slice : list string) :
  target ∉ removeSessionNonce slice target.
Proof.
  rewrite removeSessionNonce_filter, list_elem_of_filter. tauto.
Qed.

Lemma removeSessionNonce_other (slice : list string) (x : string) :
  x ≠ target → x ∈ slice → x ∈ removeSessionNonce slice target.
Proof.
  rewrite removeSessionNonce_filter, list_elem_of_filter. tauto.
Qed.

Lemma removeSessionNonce_sub (slice : list string) (x : string) :
  x ∈ removeSessionNonce slice target → x ∈ slice ∧ x ≠ target.
Proof.
  rewrite removeSessionNonce_filter, list_elem_of_filter. tauto.
Qed.

End RemoveSessionNonce.

(** ** What each mutation does to the two maps *)

Section Mutations.
Context {Extra : Type}.
Implicit Types (m : SessionManager Extra) (s : PeerSession Extra).

Ltac run_go :=
  unfold AddSession, UpdateSession, RemoveSession, HasSession,
    addSessionByIdentityKey, mbind, go_bind, mret, go_ret, modify, get, deref,
    set_sessions, set_identityKeyToSessions; simpl.

Lemma AddSession_both s m handle key :
  SessionNonce s = Some handle → PeerIdentityKey s = Some key →
  AddSession s m = Returns ()
    (mkSessionManager (<[handle := s]> (sessions m))
       (<[key := default [] (identityKeyToSessions m !! key) ++ [handle]]>
          (identityKeyToSessions m))).
Proof.
  intros Hn Hk. run_go. rewrite Hn, Hk. simpl.
  by destruct (identityKeyToSessions m !! key).
Qed.

Lemma AddSession_handle_only s m handle :
  SessionNonce s = Some handle → PeerIdentityKey s = None →
  AddSession s m = Returns ()
    (mkSessionManager (<[handle := s]> (sessions m)) (identityKeyToSessions m)).
Proof. intros Hn Hk. run_go. by rewrite Hn, Hk. Qed.

Lemma AddSession_neither s m :
  SessionNonce s = None → PeerIdentityKey s = None →
  AddSession s m = Returns () m.
Proof. intros Hn Hk. run_go. rewrite Hn, Hk. by destruct m. Qed.

Lemma AddSession_identity_only s m key :
  SessionNonce s = None → PeerIdentityKey s = Some key →
  AddSession s m = Panics NilDereference m.
Proof.
  intros Hn Hk. run_go. rewrite Hn, Hk. simpl.
  by destruct (identityKeyToSessions m !! key).
Qed.

Lemma RemoveSession_both s m handle key :
  SessionNonce s = Some handle → PeerIdentityKey s = Some key →
  RemoveSession s m = Returns ()
    (mkSessionManager (delete handle (sessions m))
       (match identityKeyToSessions m !! key with
        | None => identityKeyToSessions m
        | Some handles =>
            match filter (λ str, str ≠ handle) handles with
            | [] => delete key (identityKeyToSessions m)
            | kept => <[key := kept]> (identityKeyToSessions m)
            end
        end)).
Proof.
  intros Hn Hk. run_go. rewrite Hn, Hk. simpl.
  destruct (identityKeyToSessions m !! key) as [handles|]; [|done].
  rewrite removeSessionNonce_filter.
  destruct (filter _ handles); simpl; done.
Qed.

Lemma RemoveSession_handle_only s m handle :
  SessionNonce s = Some handle → PeerIdentityKey s = None →
  RemoveSession s m = Returns ()
    (mkSessionManager (delete handle (sessions m)) (identityKeyToSessions m)).
Proof. intros Hn Hk. run_go. by rewrite Hn, Hk. Qed.

Lemma RemoveSession_neither s m :
  SessionNonce s = None → PeerIdentityKey s = None →
  RemoveSession s m = Returns () m.
Proof. intros Hn Hk. run_go. rewrite Hn, Hk. by destruct m. Qed.

Lemma RemoveSession_identity_only s m key :
  SessionNonce s = None → PeerIdentityKey s = Some key →
  RemoveSession s m =
    match identityKeyToSessions m !! key with
    | Some _ => Panics NilDereference m
    | None => Returns () m
    end.
Proof.
  intros Hn Hk. run_go. rewrite Hn, Hk. simpl.
  destruct m as [ss idx]; simpl. by destruct (idx !! key).
Qed.

Lemma HasSession_eq identifier m :
  HasSession identifier m = Returns
    (match sessions m !! identifier, identityKeyToSessions m !! identifier with
     | Some _, _ => true
     | None, Some (_ :: _) => true
     | None, _ => false
     end) m.
Proof.
  run_go. destruct (sessions m !! identifier); [done|].
  destruct (identityKeyToSessions m !! identifier) as [[|]|]; done.
Qed.

End Mutations.

(** ** The selection loop against the policy *)

Section Selection.
Context {Extra : Type}.
Implicit Types (m : SessionManager Extra) (h cells : heap Extra).
Implicit Types (s b : PeerSession Extra) (v : option (PeerSession Extra)).
Implicit Types (r best : option nat) (cs : list (PeerSession Extra)).

Ltac run_read :=
  unfold GetSession, getBestSession, getBestSession_body, mbind, go_bind,
    mret, go_ret, get, new, load; simpl.

(** The two tests of the loop body decide exactly as the policy prefers. *)
Lemma tests_prefer b s :
  (if IsAuthenticated s && negb (IsAuthenticated b) then s
   else if bool_decide (IsAuthenticated s = IsAuthenticated b)
           && After (LastUpdate s) (LastUpdate b)
        then s else b) = prefer b s.
Proof.
  unfold prefer, After.
  destruct (IsAuthenticated s), (IsAuthenticated b); simpl; try done;
    by case_bool_decide.
Qed.

Lemma prefer_either b s : prefer b s = b ∨ prefer b s = s.
Proof.
  unfold prefer.
  destruct (IsAuthenticated b), (IsAuthenticated s);
    try case_bool_decide; auto.
Qed.

Lemma prefer_authenticated b s :
  IsAuthenticated (prefer b s) = IsAuthenticated b || IsAuthenticated s.
Proof.
  unfold prefer.
  destruct (IsAuthenticated b) eqn:Hb, (IsAuthenticated s) eqn:Hs;
    try case_bool_decide; simpl; congruence.
Qed.



Lemma foldl_prefer_elem b cs : foldl prefer b cs ∈ b :: cs.
Proof.
  revert b. induction cs as [|c cs IH]; intros b; simpl.
  - apply elem_of_cons. by left.
  - specialize (IH (prefer b c)). rewrite !elem_of_cons in *.
    destruct IH as [-> | Hin]; [|auto].
    destruct (prefer_either b c) as [-> | ->]; auto.
Qed.

Lemma foldl_prefer_authenticated b cs :
  IsAuthenticated (foldl prefer b cs)
  = IsAuthenticated b || existsb IsAuthenticated cs.
Proof.
  revert b. induction cs as [|c cs IH]; intros b; simpl.
  - by rewrite orb_false_r.
  - by rewrite IH, prefer_authenticated, orb_assoc.
Qed.

Lemma best_candidate_elem cs s : best_candidate cs = Some s → s ∈ cs.
Proof.
  destruct cs as [|c cs]; simpl; [done|].
  intros [= <-]. apply foldl_prefer_elem.
Qed.

Lemma best_candidate_None cs : best_candidate cs = None ↔ cs = [].
Proof. by destruct cs. Qed.

Lemma candidates_elem m handles s :
  s ∈ candidates m handles ↔
  ∃ handle, handle ∈ handles ∧ sessions m !! handle = Some s.
Proof. unfold candidates. apply list_elem_of_omap. Qed.

Lemma candidates_nil m handles :
  candidates m handles = [] ↔
  ∀ handle, handle ∈ handles → sessions m !! handle = None.
Proof.
  induction handles as [|x handles IH]; simpl.
  - split; [|done]. intros _ handle Hin. by apply elem_of_nil in Hin.
  - destruct (sessions m !! x) as [s|] eqn:Hx.
    + split; [done|]. intros H. specialize (H x). rewrite Hx in H.
      discriminate H. apply elem_of_cons. by left.
    + rewrite IH. split.
      * intros H handle [->|Hin]%elem_of_cons; auto.
      * intros H handle Hin. apply H, elem_of_cons. by right.
Qed.

Lemma candidates_app m l1 l2 :
  candidates m (l1 ++ l2) = candidates m l1 ++ candidates m l2.
Proof. unfold candidates. apply omap_app. Qed.

End Selection.

(** ** The reads: what the loop and [GetSession] return and allocate *)

Section Reading.
Context {Extra : Type}.
Implicit Types (m : SessionManager Extra) (h cells : heap Extra).
Implicit Types (s b : PeerSession Extra) (v : option (PeerSession Extra)).
Implicit Types (r best : option nat) (cs : list (PeerSession Extra)).

Ltac run_read :=
  unfold GetSession, getBestSession, getBestSession_body, mbind, go_bind,
    mret, go_ret, get, new, load; simpl.

Lemma select_advance m handle rest v :
  select v (candidates m (handle :: rest))
  = select (advance m handle v) (candidates m rest).
Proof.
  unfold advance. simpl.
  destruct (sessions m !! handle) as [s|]; [|done]. by destruct v.
Qed.

Lemma getBestSession_body_spec handle best m h :
  valid h best →
  ∃ r cells,
    getBestSession_body handle best (m, h) = Returns r (m, h ++ cells)
    ∧ valid (h ++ cells) r
    ∧ pointee (h ++ cells) r = advance m handle (pointee h best)
    ∧ ((r = best ∧ cells = []) ∨ (r = Some (length h) ∧ length cells = 1)).
Proof.
  intros Hvalid. unfold advance. run_read.
  destruct (sessions m !! handle) as [s|].
  2:{ exists best, []. rewrite app_nil_r. split_and!; auto. }
  assert (Hfresh : ∃ r cells,
    Returns (Some (length h)) (m, h ++ [s]) = Returns r (m, h ++ cells)
    ∧ valid (h ++ cells) r ∧ pointee (h ++ cells) r = Some s
    ∧ ((r = best ∧ cells = []) ∨ (r = Some (length h) ∧ length cells = 1))).
  { exists (Some (length h)), [s]. simpl. rewrite length_app. simpl.
    split_and!; [done | lia | | by right].
    by apply list_lookup_middle. }
  destruct best as [p|]; simpl in *; [|done].
  destruct (lookup_lt_is_Some_2 h p Hvalid) as [b Hb]. rewrite Hb. simpl.
  rewrite <- (tests_prefer b s).
  destruct (IsAuthenticated s && negb (IsAuthenticated b)); [done|].
  destruct (bool_decide _ && After _ _); [done|].
  exists (Some p), []. rewrite app_nil_r. simpl. split_and!; auto.
Qed.

Lemma for_range_getBestSession handles :
  ∀ best m h,
    valid h best →
    ∃ r cells,
      for_range handles getBestSession_body best (m, h) = Returns r (m, h ++ cells)
      ∧ valid (h ++ cells) r
      ∧ pointee (h ++ cells) r = select (pointee h best) (candidates m handles)
      ∧ ((r = best ∧ cells = []) ∨ (∃ p, r = Some p ∧ length h ≤ p)).
Proof.
  induction handles as [|handle rest IH]; intros best m h Hvalid.
  - exists best, []. rewrite app_nil_r. simpl. split_and!; auto.
    destruct best as [p|]; simpl in *; [|done].
    by destruct (lookup_lt_is_Some_2 h p Hvalid) as [b ->].
  - destruct (getBestSession_body_spec handle best m h Hvalid)
      as (r1 & cells1 & Hbody & Hvalid1 & Hpointee1 & Hfresh1).
    destruct (IH r1 m (h ++ cells1) Hvalid1)
      as (r & cells & Hloop & Hvalid2 & Hpointee & Hfresh).
    exists r, (cells1 ++ cells). rewrite app_assoc.
    split_and!; [| done | |].
    + simpl. unfold mbind, go_bind. by rewrite Hbody.
    + by rewrite Hpointee, Hpointee1, select_advance.
    + destruct Hfresh as [[-> ->] | (p & -> & Hp)].
      * rewrite app_nil_r.
        destruct Hfresh1 as [[-> ->] | [-> _]]; [by left | right; eauto].
      * right. exists p. split; [done|]. rewrite length_app in Hp. lia.
Qed.

Lemma GetSession_spec identifier m h :
  ∃ r cells,
    GetSession identifier (m, h) = Returns r (m, h ++ cells)
    ∧ pointee (h ++ cells) r = found m identifier
    ∧ match r with
      | Some p => length h ≤ p < length (h ++ cells)
      | None => cells = []
      end.
Proof.
  unfold found. run_read.
  destruct (sessions m !! identifier) as [s|].
  { exists (Some (length h)), [s]. simpl. rewrite length_app. simpl.
    split_and!; [done | by apply list_lookup_middle | lia | lia]. }
  destruct (identityKeyToSessions m !! identifier) as [handles|].
  2:{ exists None, []. by rewrite app_nil_r. }
  destruct (for_range_getBestSession handles None m h I)
    as (r & cells & Hloop & Hvalid & Hpointee & Hfresh).
  exists r, cells. split_and!; [done | done |].
  destruct Hfresh as [[-> ->] | (p & -> & Hp)]; [done|].
  simpl in Hvalid. lia.
Qed.

Lemma GetSession_retrieved identifier m h :
  retrieved (GetSession identifier (m, h)) = found m identifier.
Proof.
  destruct (GetSession_spec identifier m h) as (r & cells & -> & Hpointee & _).
  rewrite <- Hpointee. by destruct r.
Qed.

Lemma found_Some identifier m h s :
  found m identifier = Some s →
  ∃ p cells,
    GetSession identifier (m, h) = Returns (Some p) (m, h ++ cells)
    ∧ (h ++ cells) !! p = Some s ∧ h !! p = None.
Proof.
  intros Hfound.
  destruct (GetSession_spec identifier m h) as (r & cells & Hget & Hpointee & Hr).
  rewrite Hfound in Hpointee. destruct r as [p|]; [|done].
  exists p, cells. split_and!; [done | done |].
  apply lookup_ge_None. lia.
Qed.

Lemma found_None identifier m h :
  found m identifier = None →
  GetSession identifier (m, h) = Returns None (m, h).
Proof.
  intros Hfound.
  destruct (GetSession_spec identifier m h) as (r & cells & Hget & Hpointee & Hr).
  rewrite Hfound in Hpointee. destruct r as [p|].
  - simpl in Hpointee. apply lookup_ge_None in Hpointee. lia.
  - subst cells. by rewrite app_nil_r in Hget.
Qed.

End Reading.

(** ** Properties of best-session selection and of the reads *)

Section ReadProperties.
Context {Extra : Type}.
Implicit Types (m : SessionManager Extra) (h cells : heap Extra).
Implicit Types (s : PeerSession Extra).

(** C5. Best-session tie-break order.  [getBestSession] is the left-to-right
    fold of the policy [prefer] over the sessions its handles resolve to, in
    the order of the handle-set (it returns nil when none resolves, and
    otherwise a pointer to a cell holding the folded candidate).  Between two
    candidates of equal authentication status the one with the strictly later
    [LastUpdate] wins, and with equal timestamps the earlier-encountered one
    is kept. *)
Theorem getBestSession_tie_break m h :
  (∀ handles,
     match best_candidate (candidates m handles) with
     | None => getBestSession handles (m, h) = Returns None (m, h)
     | Some s =>
         ∃ p cells,
           getBestSession handles (m, h) = Returns (Some p) (m, h ++ cells)
           ∧ (h ++ cells) !! p = Some s
     end)
  ∧ (∀ first second s1 s2,
       sessions m !! first = Some s1 →
       sessions m !! second = Some s2 →
       IsAuthenticated s1 = IsAuthenticated s2 →
       retrieved (getBestSession [first; second] (m, h))
       = Some (if bool_decide (LastUpdate s1 < LastUpdate s2)%Z then s2 else s1)).
Proof.
  assert (Hfold : ∀ handles,
    ∃ r cells,
      getBestSession handles (m, h) = Returns r (m, h ++ cells)
      ∧ pointee (h ++ cells) r = best_candidate (candidates m handles)
      ∧ (r = None → cells = [])).
  { intros handles.
    destruct (for_range_getBestSession handles None m h I)
      as (r & cells & Hloop & _ & Hpointee & Hfresh).
    exists r, cells. split_and!; [done | done |].
    intros ->. by destruct Hfresh as [[_ ->] | (p & ? & _)]. }
  split.
  - intros handles.
    destruct (Hfold handles) as (r & cells & Hloop & Hpointee & Hnil).
    destruct (best_candidate (candidates m handles)) as [s|].
    + destruct r as [p|]; [|done]. by exists p, cells.
    + destruct r as [p|].
      * destruct (for_range_getBestSession handles None m h I)
          as (r' & cells' & Hloop' & Hvalid & _).
        unfold getBestSession in Hloop. rewrite Hloop in Hloop'.
        injection Hloop' as <- <-%app_inv_head. simpl in *.
        apply lookup_ge_None in Hpointee. lia.
      * rewrite Hnil in Hloop by done. by rewrite app_nil_r in Hloop.
  - intros first second s1 s2 H1 H2 Hauth.
    destruct (Hfold [first; second]) as (r & cells & -> & Hpointee & _).
    simpl in Hpointee. rewrite H1, H2 in Hpointee. simpl in Hpointee.
    destruct r as [p|]; [|done]. simpl in *. rewrite Hpointee. f_equal.
    unfold prefer. rewrite Hauth. by destruct (IsAuthenticated s2).
Qed.

(** C6. [GetSession] lookup order and absence.  [GetSession] always returns.
    An identifier that is a key of the handle index yields a pointer to a
    fresh copy of that session.  Otherwise the identifier is taken as an
    identity key and the call is [getBestSession] on its handle-set, the best
    of the handles that resolve.  The result is nil exactly when the
    identifier is in neither index, or is in the identity index only and no
    handle of its handle-set resolves. *)
Theorem GetSession_lookup_order identifier m h :
  is_Some (result (GetSession identifier (m, h)))
  ∧ (∀ s, sessions m !! identifier = Some s →
       GetSession identifier (m, h) = Returns (Some (length h)) (m, h ++ [s])
       ∧ retrieved (GetSession identifier (m, h)) = Some s)
  ∧ (sessions m !! identifier = None →
     ∀ handles, identityKeyToSessions m !! identifier = Some handles →
       GetSession identifier (m, h) = getBestSession handles (m, h)
       ∧ retrieved (GetSession identifier (m, h))
         = best_candidate (candidates m handles))
  ∧ (GetSession identifier (m, h) = Returns None (m, h) ↔
     sessions m !! identifier = None
     ∧ (identityKeyToSessions m !! identifier = None
        ∨ ∃ handles,
            identityKeyToSessions m !! identifier = Some handles
            ∧ ∀ handle, handle ∈ handles → sessions m !! handle = None)).
Proof.
  split_and!.
  - by destruct (GetSession_spec identifier m h) as (r & cells & -> & _).
  - intros s Hs. rewrite GetSession_retrieved. unfold found. rewrite Hs.
    split; [|done].
    unfold GetSession, mbind, go_bind, mret, go_ret, get, new. simpl.
    by rewrite Hs.
  - intros Hs handles Hk. rewrite GetSession_retrieved. unfold found.
    rewrite Hs, Hk. split; [|done].
    unfold GetSession, mbind, go_bind, mret, go_ret, get. simpl.
    by rewrite Hs, Hk.
  - split.
    + intros Hget.
      pose proof (GetSession_retrieved identifier m h) as Hfound.
      rewrite Hget in Hfound. simpl in Hfound. unfold found in Hfound.
      destruct (sessions m !! identifier) as [s|]; [done|]. split; [done|].
      destruct (identityKeyToSessions m !! identifier) as [handles|]; [|by left].
      right. exists handles. split; [done|].
      by apply candidates_nil, best_candidate_None.
    + intros [Hs Hk]. apply found_None. unfold found. rewrite Hs.
      destruct Hk as [-> | (handles & -> & Hstale)]; [done|].
      by apply best_candidate_None, candidates_nil.
Qed.

End ReadProperties.

(** ** Properties of the mutations *)

Section MutationProperties.
Context {Extra : Type}.
Implicit Types (m : SessionManager Extra) (h cells : heap Extra).
Implicit Types (s : PeerSession Extra) (cs : list (PeerSession Extra)).
Implicit Types (handles : list string).

Lemma candidates_sessions m m' handles :
  sessions m' = sessions m → candidates m' handles = candidates m handles.
Proof. unfold candidates. by intros ->. Qed.


Lemma filter_all_target handles (target : string) :
  (∀ x, x ∈ handles → x = target) →
  filter (λ str, str ≠ target) handles = [].
Proof.
  intros Hall. destruct (filter _ handles) as [|x kept] eqn:Hfilter; [done|].
  assert (Hx : x ∈ filter (λ str, str ≠ target) handles).
  { rewrite Hfilter. apply elem_of_cons. by left. }
  apply list_elem_of_filter in Hx as [Hne Hin]. by apply Hall in Hin.
Qed.

Lemma filter_replicate_target handles (target : string) n :
  filter (λ str, str ≠ target) (handles ++ replicate n target)
  = filter (λ str, str ≠ target) handles.
Proof.
  rewrite filter_app, (filter_all_target (replicate n target)).
  - apply app_nil_r.
  - by intros x [-> _]%elem_of_replicate.
Qed.

Lemma run_cons (c : @call Extra) calls m :
  run (c :: calls) m =
  match perform c m with
  | Returns _ m1 => run calls m1
  | Panics e m1 => Panics e m1
  end.
Proof. done. Qed.

Lemma run_app (calls1 calls2 : list (@call Extra)) m :
  run (calls1 ++ calls2) m =
  match run calls1 m with
  | Returns _ m1 => run calls2 m1
  | Panics e m1 => Panics e m1
  end.
Proof.
  revert m. induction calls1 as [|c calls1 IH]; intros m; simpl; [done|].
  unfold mbind, go_bind. destruct (perform c m); [apply IH | done].
Qed.

Lemma run_repeated_adds s handle key n :
  SessionNonce s = Some handle → PeerIdentityKey s = Some key →
  ∀ m,
    run (replicate (S n) (CallAdd s)) m = Returns ()
      (mkSessionManager (<[handle := s]> (sessions m))
         (<[key := default [] (identityKeyToSessions m !! key)
                   ++ replicate (S n) handle]> (identityKeyToSessions m))).
Proof.
  intros Hn Hk. induction n as [|n IH]; intros m.
  - simpl. unfold mbind, go_bind. by rewrite (AddSession_both _ _ _ _ Hn Hk).
  - change (replicate (S (S n)) (CallAdd s))
      with (CallAdd s :: replicate (S n) (CallAdd s)).
    rewrite run_cons. simpl perform.
    rewrite (AddSession_both _ _ _ _ Hn Hk), IH. simpl.
    rewrite insert_insert_eq, lookup_insert_eq, insert_insert_eq. simpl.
    by rewrite <- app_assoc.
Qed.

Lemma RemoveSession_cleans s m handle key :
  SessionNonce s = Some handle → PeerIdentityKey s = Some key →
  ∃ m', RemoveSession s m = Returns () m'
    ∧ sessions m' !! handle = None
    ∧ (∀ handles, identityKeyToSessions m' !! key = Some handles →
         handle ∉ handles).
Proof.
  intros Hn Hk. rewrite (RemoveSession_both _ _ handle key) by done.
  eexists; split; [done|]. simpl. split; [apply lookup_delete_eq|].
  intros handles'.
  destruct (identityKeyToSessions m !! key) as [handles|] eqn:Hlk.
  - destruct (filter (λ str, str ≠ handle) handles) as [|y kept] eqn:Hfilter.
    + by rewrite lookup_delete_eq.
    + rewrite lookup_insert_eq. intros [= <-]. rewrite <- Hfilter.
      rewrite list_elem_of_filter. tauto.
  - by rewrite Hlk.
Qed.

End MutationProperties.

(** ** The claims about adding and removing *)

Section MutationClaims.
Context {Extra : Type}.
Implicit Types (m : SessionManager Extra) (h cells : heap Extra).
Implicit Types (s : PeerSession Extra) (handles : list string).

Lemma HasSession_false identifier m :
  HasSession identifier m = Returns false m ↔
  sessions m !! identifier = None
  ∧ (identityKeyToSessions m !! identifier = None
     ∨ identityKeyToSessions m !! identifier = Some []).
Proof.
  rewrite HasSession_eq.
  destruct (sessions m !! identifier) as [s|].
  { split; [done | by intros [? _]]. }
  destruct (identityKeyToSessions m !! identifier) as [[|x handles]|].
  - split; auto.
  - split; [done | by intros [_ [?|?]]].
  - split; auto.
Qed.


(** C4, as the code has it.  Let an identity key that is not itself a key of
    the handle index have a handle-set.  If one of its handles resolves to an
    authenticated session, [GetSession] of the identity key returns an
    authenticated session, whatever the timestamps.  In particular, when the
    handles that resolve are those of an unauthenticated [s1] and of an
    authenticated [s2], it returns [s2]. *)
Theorem GetSession_prefers_authenticated m h key handles :
  sessions m !! key = None →
  identityKeyToSessions m !! key = Some handles →
  (∀ second s2,
     second ∈ handles → sessions m !! second = Some s2 →
     IsAuthenticated s2 = true →
     ∃ p cells s,
       GetSession key (m, h) = Returns (Some p) (m, h ++ cells)
       ∧ (h ++ cells) !! p = Some s ∧ IsAuthenticated s = true)
  ∧ (∀ first second s1 s2,
       second ∈ handles →
       (∀ x, x ∈ handles → x = first ∨ x = second ∨ sessions m !! x = None) →
       sessions m !! first = Some s1 → sessions m !! second = Some s2 →
       IsAuthenticated s1 = false → IsAuthenticated s2 = true →
       ∃ p cells,
         GetSession key (m, h) = Returns (Some p) (m, h ++ cells)
         ∧ (h ++ cells) !! p = Some s2).
Proof.
  intros Hs Hk.
  assert (Hauth : ∀ second s2,
    second ∈ handles → sessions m !! second = Some s2 →
    IsAuthenticated s2 = true →
    ∃ s, found m key = Some s ∧ s ∈ candidates m handles
         ∧ IsAuthenticated s = true).
  { intros second s2 Hin H2 Hauth2. unfold found. rewrite Hs, Hk.
    assert (Hc : s2 ∈ candidates m handles) by (apply candidates_elem; eauto).
    destruct (candidates m handles) as [|c cs] eqn:Hcs;
      [by apply elem_of_nil in Hc|].
    exists (foldl prefer c cs). split_and!; [done | apply foldl_prefer_elem |].
    rewrite foldl_prefer_authenticated.
    apply elem_of_cons in Hc as [<- | Hc]; [by rewrite Hauth2|].
    apply orb_true_iff. right. apply existsb_exists. exists s2.
    by rewrite <- list_elem_of_In. }
  split.
  - intros second s2 Hin H2 Hauth2.
    destruct (Hauth second s2 Hin H2 Hauth2) as (s & Hfound & _ & Hs_auth).
    destruct (found_Some key m h s Hfound) as (p & cells & Hget & Hcell & _).
    eauto 6.
  - intros first second s1 s2 Hin Hall H1 H2 Hauth1 Hauth2.
    destruct (Hauth second s2 Hin H2 Hauth2) as (s & Hfound & Hc & Hs_auth).
    apply candidates_elem in Hc as (x & Hx & Hxs).
    assert (s = s2) as ->.
    { destruct (Hall x Hx) as [-> | [-> | Hnone]]; congruence. }
    destruct (found_Some key m h s2 Hfound) as (p & cells & Hget & Hcell & _).
    eauto.
Qed.

(** C7, as the code has it.  Let [s] have handle and identity key and let
    the handle-set of its identity key hold no other handle.  Then
    [RemoveSession] returns, the identity key is absent from the identity
    index afterwards and the handle is absent from the handle index.
    [HasSession] of the identity key is then false exactly when that string
    is not the handle of another stored session, and [HasSession] of the
    handle is false exactly when that string is not also an identity key
    with a non-empty handle-set of its own. *)
Theorem RemoveSession_only_session s m handle key handles :
  SessionNonce s = Some handle → PeerIdentityKey s = Some key →
  identityKeyToSessions m !! key = Some handles →
  (∀ x, x ∈ handles → x = handle) →
  ∃ m',
    RemoveSession s m = Returns () m'
    ∧ identityKeyToSessions m' !! key = None
    ∧ sessions m' !! handle = None
    ∧ (HasSession key m' = Returns false m' ↔
       key = handle ∨ sessions m !! key = None)
    ∧ (HasSession handle m' = Returns false m' ↔
       handle = key ∨ identityKeyToSessions m !! handle = None
       ∨ identityKeyToSessions m !! handle = Some []).
Proof.
  intros Hn Hk Hlk Hall.
  rewrite (RemoveSession_both _ _ handle key) by done.
  rewrite Hlk, filter_all_target by done.
  eexists; split; [done|]. simpl.
  split; [apply lookup_delete_eq|]. split; [apply lookup_delete_eq|].
  rewrite !HasSession_false. simpl. rewrite !lookup_delete_eq.
  split.
  - destruct (decide (key = handle)) as [->|Hne].
    + rewrite lookup_delete_eq. tauto.
    + rewrite lookup_delete_ne by done. intuition.
  - destruct (decide (handle = key)) as [->|Hne].
    + rewrite lookup_delete_eq. tauto.
    + rewrite lookup_delete_ne by done. intuition.
Qed.

(** C10, as the code has it.  For a session [s] with handle and identity key
    and every [k >= 1], [k] calls of [AddSession] followed by one
    [RemoveSession] return and leave no occurrence of the handle in the
    handle-set of the identity key of [s], nor the handle in the handle
    index.  If the handle-set held no other handle before, the identity key
    is absent from the identity index afterwards, and [HasSession] of the
    identity key is false exactly when that string is not the handle of
    another stored session. *)
Theorem RemoveSession_after_adds s m handle key k :
  SessionNonce s = Some handle → PeerIdentityKey s = Some key → 1 ≤ k →
  ∃ m',
    run (replicate k (CallAdd s) ++ [CallRemove s]) m = Returns () m'
    ∧ sessions m' !! handle = None
    ∧ (∀ handles, identityKeyToSessions m' !! key = Some handles →
         handle ∉ handles)
    ∧ ((∀ handles x, identityKeyToSessions m !! key = Some handles →
          x ∈ handles → x = handle) →
       identityKeyToSessions m' !! key = None
       ∧ (HasSession key m' = Returns false m' ↔
          key = handle ∨ sessions m !! key = None)).
Proof.
  intros Hn Hk Hpos. destruct k as [|k]; [lia|].
  rewrite run_app, (run_repeated_adds _ _ _ _ Hn Hk), run_cons. simpl perform.
  rewrite (RemoveSession_both _ _ handle key) by done. simpl.
  rewrite lookup_insert_eq.
  change (handle :: replicate k handle) with (replicate (S k) handle).
  rewrite filter_replicate_target.
  set (before := default [] (identityKeyToSessions m !! key)).
  eexists; split; [done|]. simpl.
  split; [apply lookup_delete_eq|]. split.
  - intros handles.
    destruct (filter (λ str, str ≠ handle) before) as [|y kept] eqn:Hfilter.
    + by rewrite lookup_delete_eq.
    + rewrite lookup_insert_eq. intros [= <-]. rewrite <- Hfilter.
      rewrite list_elem_of_filter. tauto.
  - intros Honly.
    rewrite filter_all_target.
    2:{ unfold before. intros x Hx.
        destruct (identityKeyToSessions m !! key) as [handles|] eqn:Hlk;
          simpl in Hx; [by apply (Honly handles) | by apply elem_of_nil in Hx]. }
    split; [apply lookup_delete_eq|].
    rewrite HasSession_false. simpl. rewrite lookup_delete_eq.
    destruct (decide (key = handle)) as [->|Hne].
    + rewrite lookup_delete_eq. tauto.
    + rewrite lookup_delete_ne, lookup_insert_ne by done. intuition.
Qed.

End MutationClaims.

(** ** The claims at concrete sessions *)

Section Concrete.
Open Scope string_scope.
Open Scope list_scope.

(** C1.  The operations are not total.  A session with an identity key and no
    handle makes [AddSession] (and so [UpdateSession]) dereference the nil
    [SessionNonce] in [addSessionByIdentityKey], and makes [RemoveSession] do
    so once the identity key has a handle-set; the store is left as it was. *)
Theorem AddSession_identity_without_handle :
  let s := session None (Some "peer") true 0 in
  let m := after [CallAdd (session (Some "n1") (Some "peer") true 0)] in
  AddSession s NewSessionManager = Panics NilDereference NewSessionManager
  ∧ UpdateSession s NewSessionManager = Panics NilDereference NewSessionManager
  ∧ RemoveSession s m = Panics NilDereference m.
Proof. by vm_compute. Qed.



(** A handle added under one identity, re-added under another and removed
    under the latter stays listed under the former without an entry in the
    handle index. *)
Lemma stale_handle_after_identity_change :
  let calls := [CallAdd (session (Some "n1") (Some "alice") false 0);
                CallUpdate (session (Some "n1") (Some "bob") true 1);
                CallRemove (session (Some "n1") (Some "bob") true 1)] in
  run calls NewSessionManager = Returns () (after calls)
  ∧ identityKeyToSessions (after calls) !! "alice" = Some ["n1"]
  ∧ sessions (after calls) !! "n1" = None
  ∧ ¬ consistent (after calls).
Proof.
  split_and!; [by vm_compute | by vm_compute | by vm_compute |].
  intros Hconsistent.
  destruct (Hconsistent "alice" ["n1"] "n1") as [s Hs].
  - by vm_compute.
  - apply elem_of_cons. by left.
  - vm_compute in Hs. discriminate Hs.
Qed.

(** An identity key that is also the handle of a stored session is answered
    from the handle index: the unauthenticated session under that handle is
    returned although the identity has an authenticated one. *)
Lemma GetSession_handle_shadows_identity :
  let s1 := session (Some "peer") (Some "peer") false 2 in
  let s2 := session (Some "n2") (Some "peer") true 1 in
  let m := after [CallAdd s1; CallAdd s2] in
  sessions m !! "peer" = Some s1
  ∧ sessions m !! "n2" = Some s2
  ∧ identityKeyToSessions m !! "peer" = Some ["peer"; "n2"]
  ∧ GetSession "peer" (m, []) = Returns (Some 0) (m, [s1])
  ∧ retrieved (GetSession "peer" (m, [])) ≠ Some s2.
Proof.
  split_and!; [by vm_compute | by vm_compute | by vm_compute | by vm_compute |].
  vm_compute. discriminate.
Qed.

Lemma GetSession_prefers_authenticated_witness :
  let s1 := session (Some "n1") (Some "peer") false 2 in
  let s2 := session (Some "n2") (Some "peer") true 1 in
  let m := after [CallAdd s1; CallAdd s2] in
  sessions m !! "peer" = None
  ∧ identityKeyToSessions m !! "peer" = Some ["n1"; "n2"]
  ∧ sessions m !! "n1" = Some s1 ∧ sessions m !! "n2" = Some s2
  ∧ ∃ p cells,
      GetSession "peer" (m, []) = Returns (Some p) (m, cells)
      ∧ cells !! p = Some s2.
Proof.
  intros s1 s2 m.
  assert (Hs : sessions m !! "peer" = None) by reflexivity.
  assert (Hk : identityKeyToSessions m !! "peer" = Some ["n1"; "n2"])
    by reflexivity.
  assert (H1 : sessions m !! "n1" = Some s1) by reflexivity.
  assert (H2 : sessions m !! "n2" = Some s2) by reflexivity.
  split; [exact Hs|]. split; [exact Hk|]. split; [exact H1|]. split; [exact H2|].
  refine (proj2 (GetSession_prefers_authenticated m [] "peer" ["n1"; "n2"] Hs Hk)
            "n1" "n2" s1 s2 _ _ H1 H2 eq_refl eq_refl).
  - apply elem_of_cons. right. apply elem_of_cons. by left.
  - intros x [->|[->|Hx%elem_of_nil]%elem_of_cons]%elem_of_cons; tauto.
Defined.

(** The identity key of the removed session is also the handle of another
    stored session, and its handle is also the identity key of that other
    session: [HasSession] stays true for both strings. *)
Lemma HasSession_key_is_a_handle :
  let other := session (Some "peer") (Some "n1") false 0 in
  let s := session (Some "n1") (Some "peer") true 0 in
  let before := after [CallAdd other; CallAdd s] in
  let m := after [CallAdd other; CallAdd s; CallRemove s] in
  identityKeyToSessions before !! "peer" = Some ["n1"]
  ∧ sessions before !! "n1" = Some s
  ∧ RemoveSession s before = Returns () m
  ∧ identityKeyToSessions m !! "peer" = None
  ∧ HasSession "peer" m = Returns true m
  ∧ HasSession "n1" m = Returns true m.
Proof. by vm_compute. Qed.

Lemma RemoveSession_only_session_witness :
  let s := session (Some "n1") (Some "peer") true 0 in
  let m := after [CallAdd s] in
  SessionNonce s = Some "n1" ∧ PeerIdentityKey s = Some "peer"
  ∧ identityKeyToSessions m !! "peer" = Some ["n1"]
  ∧ ∃ m',
      RemoveSession s m = Returns () m'
      ∧ identityKeyToSessions m' !! "peer" = None
      ∧ sessions m' !! "n1" = None
      ∧ HasSession "peer" m' = Returns false m'
      ∧ HasSession "n1" m' = Returns false m'.
Proof.
  intros s m.
  assert (Hk : identityKeyToSessions m !! "peer" = Some ["n1"]) by reflexivity.
  split; [reflexivity|]. split; [reflexivity|]. split; [exact Hk|].
  destruct (RemoveSession_only_session s m "n1" "peer" ["n1"] eq_refl eq_refl Hk)
    as (m' & Hremove & Hgone & Hhandle & Hkey & Hnonce).
  - by intros x ->%list_elem_of_singleton.
  - exists m'. split_and!; [done | done | done | |].
    + apply Hkey. by right.
    + apply Hnonce. right. by left.
Defined.

(** Two [AddSession] calls and one [RemoveSession] of a session that is the
    only one of its identity, in a store where its handle was first listed
    under another identity and where its identity key is also the handle of
    another session: the handle stays listed under the other identity, and
    [HasSession] of the identity key is true. *)
Lemma HasSession_after_adds_key_is_a_handle :
  let other := session (Some "peer") None false 0 in
  let earlier := session (Some "n1") (Some "alice") false 0 in
  let s := session (Some "n1") (Some "peer") true 1 in
  let before := after [CallAdd other; CallAdd earlier] in
  let calls := replicate 2 (CallAdd s) ++ [CallRemove s] in
  identityKeyToSessions before !! "peer" = None
  ∧ run calls before = Returns () (state_of (run calls before))
  ∧ identityKeyToSessions (state_of (run calls before)) !! "alice"
    = Some ["n1"]
  ∧ identityKeyToSessions (state_of (run calls before)) !! "peer" = None
  ∧ HasSession "peer" (state_of (run calls before))
    = Returns true (state_of (run calls before)).
Proof. by vm_compute. Qed.

Lemma RemoveSession_after_adds_witness :
  let s := session (Some "n1") (Some "peer") true 0 in
  SessionNonce s = Some "n1" ∧ PeerIdentityKey s = Some "peer" ∧ (1 ≤ 3)%nat
  ∧ ∃ m',
      run (replicate 3 (CallAdd s) ++ [CallRemove s]) NewSessionManager
      = Returns () m'
      ∧ sessions m' !! "n1" = None
      ∧ (∀ handles, identityKeyToSessions m' !! "peer" = Some handles →
           "n1" ∉ handles)
      ∧ identityKeyToSessions m' !! "peer" = None
      ∧ HasSession "peer" m' = Returns false m'.
Proof.
  intros s. split; [reflexivity|]. split; [reflexivity|].
  assert (Hk : (1 ≤ 3)%nat) by lia. split; [exact Hk|].
  destruct (RemoveSession_after_adds s NewSessionManager "n1" "peer" 3
              eq_refl eq_refl Hk)
    as (m' & Hrun & Hhandle & Hset & Honly).
  destruct Honly as [Hgone Hhas].
  - intros handles x Hlk. discriminate Hlk.
  - exists m'. split_and!; [done | done | done | done |].
    apply Hhas. by right.
Defined.

Lemma getBestSession_tie_break_witness :
  let s1 := session (Some "n1") (Some "peer") true 5 in
  let s2 := session (Some "n2") (Some "peer") true 5 in
  let s3 := session (Some "n3") (Some "peer") true 7 in
  let m := after [CallAdd s1; CallAdd s2; CallAdd s3] in
  sessions m !! "n1" = Some s1 ∧ sessions m !! "n2" = Some s2
  ∧ sessions m !! "n3" = Some s3
  ∧ retrieved (getBestSession ["n1"; "n2"] (m, [])) = Some s1
  ∧ retrieved (getBestSession ["n2"; "n1"] (m, [])) = Some s2
  ∧ retrieved (getBestSession ["n1"; "n3"] (m, [])) = Some s3
  ∧ retrieved (getBestSession ["n3"; "n1"] (m, [])) = Some s3.
Proof.
  intros s1 s2 s3 m.
  assert (H1 : sessions m !! "n1" = Some s1) by reflexivity.
  assert (H2 : sessions m !! "n2" = Some s2) by reflexivity.
  assert (H3 : sessions m !! "n3" = Some s3) by reflexivity.
  pose proof (proj2 (getBestSession_tie_break m [])) as Hpair.
  split_and!; [done | done | done | | | |].
  - exact (Hpair "n1" "n2" s1 s2 H1 H2 eq_refl).
  - exact (Hpair "n2" "n1" s2 s1 H2 H1 eq_refl).
  - exact (Hpair "n1" "n3" s1 s3 H1 H3 eq_refl).
  - exact (Hpair "n3" "n1" s3 s1 H3 H1 eq_refl).
Defined.

Lemma GetSession_lookup_order_witness :
  let s1 := session (Some "n1") (Some "peer") true 5 in
  let m := after [CallAdd s1; CallRemove (session (Some "n1") None true 5)] in
  sessions (after [CallAdd s1]) !! "n1" = Some s1
  ∧ retrieved (GetSession "n1" (after [CallAdd s1], [])) = Some s1
  ∧ sessions (after [CallAdd s1]) !! "peer" = None
  ∧ retrieved (GetSession "peer" (after [CallAdd s1], [])) = Some s1
  ∧ GetSession "peer" (m, []) = Returns None (m, [])
  ∧ GetSession "nobody" (m, []) = Returns None (m, []).
Proof.
  intros s1 m.
  assert (H1 : sessions (after [CallAdd s1]) !! "n1" = Some s1) by reflexivity.
  assert (Hp : sessions (after [CallAdd s1]) !! "peer" = None) by reflexivity.
  split; [exact H1|].
  split.
  { apply (proj1 (proj2 (GetSession_lookup_order "n1" (after [CallAdd s1]) []))
             s1 H1). }
  split; [exact Hp|].
  split.
  { apply (proj1 (proj2 (proj2
             (GetSession_lookup_order "peer" (after [CallAdd s1]) []))) Hp
             ["n1"] eq_refl). }
  split.
  - apply (proj2 (proj2 (proj2 (GetSession_lookup_order "peer" m [])))).
    split; [reflexivity|]. right. exists ["n1"]. split; [reflexivity|].
    by intros handle ->%list_elem_of_singleton.
  - apply (proj2 (proj2 (proj2 (GetSession_lookup_order "nobody" m [])))).
    split; [reflexivity|]. by left.
Defined.

End Concrete.

(** ** Further properties of the session manager *)

Section RemoveSessionNonceMore.
Variable target : string.

Lemma removeSessionNonce_loop_bounds todo :
  ∀ i (array : list string) n,
    n ≤ i →
    let '(array', n') := removeSessionNonce_loop target todo i (array, n) in
    length array' = length array ∧ n' ≤ i + todo.
Proof.
  induction todo as [|todo IH]; intros i array n Hn; simpl.
  - split; [done | lia].
  - unfold removeSessionNonce_body.
    destruct (array !! i) as [str|]; [destruct (decide (str ≠ target))|].
    + specialize (IH (S i) (<[n:=str]> array) (S n)).
      destruct (removeSessionNonce_loop _ _ _ _) as [array' n'].
      rewrite length_insert in IH. destruct IH; [lia|]. split; [done | lia].
    + specialize (IH (S i) array n).
      destruct (removeSessionNonce_loop _ _ _ _) as [array' n'].
      destruct IH; [lia|]. split; [done | lia].
    + specialize (IH (S i) array n).
      destruct (removeSessionNonce_loop _ _ _ _) as [array' n'].
      destruct IH; [lia|]. split; [done | lia].
Qed.

Lemma filter_without_target (slice : list string) :
  filter (λ str, str ≠ target) slice = slice ↔ target ∉ slice.
Proof.
  induction slice as [|x slice IH].
  - split; [intros _ Hin; by apply elem_of_nil in Hin | done].
  - rewrite not_elem_of_cons. destruct (decide (x = target)) as [->|Hne].
    + rewrite filter_cons_False by tauto. split; [|tauto].
      intros Heq. exfalso.
      assert (Hin : target ∈ filter (λ str, str ≠ target) slice).
      { rewrite Heq. apply elem_of_cons. by left. }
      apply list_elem_of_filter in Hin. tauto.
    + rewrite filter_cons_True by done. rewrite <- IH. split.
      * intros [= Heq]. split; [congruence | done].
      * intros [_ ->]. done.
Qed.

(** X1.  [removeSessionNonce] writes inside the backing array of its argument
    and never beyond its length; what it returns are the elements different
    from [target], all of them and in their order.  The slice comes back
    unchanged exactly when [target] does not occur in it, and empty exactly
    when it holds nothing but [target]. *)
Theorem removeSessionNonce_in_place (slice : list string) :
  (let '(array, n) := removeSessionNonce_loop target (length slice) 0 (slice, 0) in
   length array = length slice ∧ n ≤ length slice
   ∧ removeSessionNonce slice target = take n array)
  ∧ removeSessionNonce slice target = filter (λ str, str ≠ target) slice
  ∧ (removeSessionNonce slice target = slice ↔ target ∉ slice)
  ∧ (removeSessionNonce slice target = [] ↔ ∀ x, x ∈ slice → x = target).
Proof.
  split_and!.
  - pose proof (removeSessionNonce_loop_bounds (length slice) 0 slice 0) as Hb.
    unfold removeSessionNonce.
    destruct (removeSessionNonce_loop _ _ _ _) as [array n].
    destruct Hb; [lia|]. split_and!; [done | lia | done].
  - apply removeSessionNonce_filter.
  - rewrite removeSessionNonce_filter. apply filter_without_target.
  - rewrite removeSessionNonce_filter. split.
    + intros Hnil x Hx. destruct (decide (x = target)) as [|Hne]; [done|].
      assert (Hin : x ∈ filter (λ str, str ≠ target) slice)
        by (by apply list_elem_of_filter).
      rewrite Hnil in Hin. by apply elem_of_nil in Hin.
    + intros Hall.
      destruct (filter _ slice) as [|x kept] eqn:Hfilter; [done|].
      assert (Hx : x ∈ filter (λ str, str ≠ target) slice).
      { rewrite Hfilter. apply elem_of_cons. by left. }
      apply list_elem_of_filter in Hx as [Hne Hin]. by apply Hall in Hin.
Qed.

End RemoveSessionNonceMore.

Section StoreProperties.
Context {Extra : Type}.
Implicit Types (m : SessionManager Extra) (h cells : heap Extra).
Implicit Types (s c : PeerSession Extra) (handles : list string).

Lemma AddSession_with_handle s m handle :
  SessionNonce s = Some handle →
  ∃ m', AddSession s m = Returns () m'
    ∧ sessions m' = <[handle := s]> (sessions m)
    ∧ (∀ key, PeerIdentityKey s = Some key →
         identityKeyToSessions m'
         = <[key := default [] (identityKeyToSessions m !! key) ++ [handle]]>
             (identityKeyToSessions m))
    ∧ (PeerIdentityKey s = None →
         identityKeyToSessions m' = identityKeyToSessions m).
Proof.
  intros Hn. destruct (PeerIdentityKey s) as [key|] eqn:Hk.
  - rewrite (AddSession_both _ _ handle key) by done.
    eexists; split_and!; [done | done | by intros ? [= <-] | done].
  - rewrite (AddSession_handle_only _ _ handle) by done.
    eexists; split_and!; done.
Qed.

Lemma GetSession_by_handle identifier m h s :
  sessions m !! identifier = Some s →
  GetSession identifier (m, h) = Returns (Some (length h)) (m, h ++ [s]).
Proof.
  intros Hs. unfold GetSession, mbind, go_bind, mret, go_ret, get, new. simpl.
  by rewrite Hs.
Qed.

(** X2.  A session that has a handle can always be added, and is then found
    under its handle: [GetSession] of the handle returns a fresh copy of
    exactly that record, whatever was stored under the handle before, and
    [HasSession] of the handle is true.  [UpdateSession] does the same. *)
Theorem AddSession_then_lookup s m h handle :
  SessionNonce s = Some handle →
  ∃ m',
    AddSession s m = Returns () m'
    ∧ UpdateSession s m = Returns () m'
    ∧ GetSession handle (m', h) = Returns (Some (length h)) (m', h ++ [s])
    ∧ HasSession handle m' = Returns true m'.
Proof.
  intros Hn.
  destruct (AddSession_with_handle s m handle Hn) as (m' & Hadd & Hsessions & _).
  exists m'. split_and!; [done | done | |].
  - apply GetSession_by_handle.
    rewrite Hsessions. apply lookup_insert_eq.
  - rewrite HasSession_eq, Hsessions, lookup_insert_eq. done.
Qed.

Lemma candidates_grow m m' handles :
  (∀ x, is_Some (sessions m !! x) → is_Some (sessions m' !! x)) →
  candidates m handles ≠ [] → candidates m' handles ≠ [].
Proof.
  intros Hgrow Hne Hnil. apply Hne. apply candidates_nil.
  intros handle Hin. destruct (sessions m !! handle) as [c|] eqn:Hc; [|done].
  exfalso. pose proof (proj1 (candidates_nil m' handles) Hnil handle Hin) as Hn.
  destruct (Hgrow handle) as [c' Hc']; [by rewrite Hc | congruence].
Qed.

(** X3.  [AddSession] never hides anything: when it returns, every
    identifier that [HasSession] accepted before is still accepted, and
    every identifier for which [GetSession] returned a session still gets
    one. *)
Theorem AddSession_keeps_reachable s m m' identifier :
  AddSession s m = Returns () m' →
  (HasSession identifier m = Returns true m →
   HasSession identifier m' = Returns true m')
  ∧ (∀ h, is_Some (retrieved (GetSession identifier (m, h))) →
          is_Some (retrieved (GetSession identifier (m', h)))).
Proof.
  intros Hadd.
  destruct (SessionNonce s) as [handle|] eqn:Hn.
  2:{ destruct (PeerIdentityKey s) as [key|] eqn:Hk.
      - by rewrite (AddSession_identity_only _ _ key) in Hadd.
      - rewrite AddSession_neither in Hadd by done. by injection Hadd as <-. }
  destruct (AddSession_with_handle s m handle Hn)
    as (m1 & Hadd1 & Hsessions & Hwith & Hwithout).
  rewrite Hadd in Hadd1. injection Hadd1 as <-.
  assert (Hgrow : ∀ x, is_Some (sessions m !! x) → is_Some (sessions m' !! x)).
  { intros x Hx. rewrite Hsessions, lookup_insert. by case_decide. }
  assert (Hidx : ∀ handles,
    identityKeyToSessions m !! identifier = Some handles →
    ∃ more, identityKeyToSessions m' !! identifier = Some (handles ++ more)).
  { intros handles Hlk. destruct (PeerIdentityKey s) as [key|].
    - rewrite (Hwith key eq_refl), lookup_insert. case_decide as Hkey.
      + subst key. rewrite Hlk. simpl. eauto.
      + exists []. by rewrite app_nil_r.
    - rewrite Hwithout by done. exists []. by rewrite app_nil_r. }
  split.
  - rewrite !HasSession_eq.
    destruct (sessions m !! identifier) as [c|] eqn:Hc.
    + destruct (Hgrow identifier) as [c' ->]; [by rewrite Hc | done].
    + destruct (identityKeyToSessions m !! identifier) as [[|x handles]|];
        [done | | done].
      destruct (Hidx (x :: handles) eq_refl) as [more ->]. simpl.
      by destruct (sessions m' !! identifier).
  - intros h. rewrite !GetSession_retrieved. unfold found.
    destruct (sessions m !! identifier) as [c|] eqn:Hc.
    + destruct (Hgrow identifier) as [c' ->]; [by rewrite Hc | done].
    + destruct (sessions m' !! identifier); [done|].
      destruct (identityKeyToSessions m !! identifier) as [handles|];
        [|by intros [? ?]].
      destruct (Hidx handles eq_refl) as [more ->]. intros [c Hbest].
      assert (Hne : candidates m' (handles ++ more) ≠ []).
      { rewrite candidates_app. intros [Hnil _]%app_eq_nil. revert Hnil.
        apply (candidates_grow m); [done|]. intros Hnil.
        by rewrite Hnil in Hbest. }
      destruct (candidates m' (handles ++ more)); [done | by eexists].
Qed.

(** X4.  Adding a session and removing it again restores the store exactly,
    when the handle was not in use: not a key of the handle index and not
    listed under the identity key of the session, whose handle-set, if there
    is one, is not empty. *)
Theorem AddSession_RemoveSession_restores s m handle key :
  SessionNonce s = Some handle → PeerIdentityKey s = Some key →
  sessions m !! handle = None →
  (∀ handles, identityKeyToSessions m !! key = Some handles →
     (handle ∉ handles) ∧ handles ≠ []) →
  run [CallAdd s; CallRemove s] m = Returns () m.
Proof.
  intros Hn Hk Hfree Hset. rewrite run_cons. simpl perform.
  rewrite (AddSession_both _ _ handle key) by done.
  rewrite run_cons. simpl perform.
  rewrite (RemoveSession_both _ _ handle key) by done.
  simpl. rewrite lookup_insert_eq, delete_insert_id by done.
  rewrite filter_app, (filter_all_target [handle])
    by (by intros x ->%list_elem_of_singleton).
  rewrite app_nil_r. destruct m as [ss idx]; simpl in *.
  destruct (idx !! key) as [handles|] eqn:Hlk; simpl.
  - destruct (Hset handles eq_refl) as [Hnotin Hne].
    rewrite (proj2 (filter_without_target handle handles) Hnotin).
    destruct handles; [done|]. rewrite insert_insert_eq.
    do 2 f_equal. by apply insert_id.
  - do 2 f_equal. by apply delete_insert_id.
Qed.

Lemma perform_no_empty_set (c : @call Extra) m :
  no_empty_set m → no_empty_set (state_of (perform c m)).
Proof.
  intros Hne.
  assert (Hadd : ∀ s, no_empty_set (state_of (AddSession s m))).
  { intros s. destruct (SessionNonce s) as [handle|] eqn:Hn.
    - destruct (AddSession_with_handle s m handle Hn)
        as (m' & -> & _ & Hwith & Hwithout). simpl.
      intros key handles. destruct (PeerIdentityKey s) as [key'|].
      + rewrite (Hwith key' eq_refl), lookup_insert. case_decide.
        * intros [= <-]. by intros [_ ?]%app_eq_nil.
        * apply Hne.
      + rewrite Hwithout by done. apply Hne.
    - destruct (PeerIdentityKey s) as [key|] eqn:Hk.
      + by rewrite (AddSession_identity_only _ _ key).
      + by rewrite AddSession_neither. }
  destruct c as [s|s|s]; simpl; [apply Hadd | apply Hadd |].
  destruct (SessionNonce s) as [handle|] eqn:Hn,
           (PeerIdentityKey s) as [key|] eqn:Hk.
  - rewrite (RemoveSession_both _ _ handle key) by done. simpl.
    intros key' handles'; simpl.
    destruct (identityKeyToSessions m !! key) as [handles|]; [|apply Hne].
    destruct (filter (λ str, str ≠ handle) handles) as [|x kept].
    + rewrite lookup_delete. case_decide; [done | apply Hne].
    + rewrite lookup_insert. case_decide; [by intros [= <-] | apply Hne].
  - by rewrite (RemoveSession_handle_only _ _ handle).
  - rewrite (RemoveSession_identity_only _ _ key) by done.
    by destruct (identityKeyToSessions m !! key).
  - by rewrite RemoveSession_neither.
Qed.

Lemma run_no_empty_set (calls : list (@call Extra)) :
  ∀ m, no_empty_set m → no_empty_set (state_of (run calls m)).
Proof.
  induction calls as [|c calls IH]; intros m Hne; [done|].
  rewrite run_cons. pose proof (perform_no_empty_set c m Hne) as Hstep.
  destruct (perform c m) as [[] m1|e m1]; simpl in Hstep; [by apply IH | done].
Qed.

(** X5.  No sequence of calls from the empty store, panicking ones included,
    leaves an identity key with an empty handle-set.  In every such state
    the length test of [HasSession] is therefore never what decides:
    [HasSession] is true exactly for the keys of the two indexes. *)
Theorem reachable_no_empty_set (calls : list (@call Extra)) identifier :
  no_empty_set (state_of (run calls NewSessionManager))
  ∧ HasSession identifier (state_of (run calls NewSessionManager))
    = Returns
        (bool_decide
           (is_Some (sessions (state_of (run calls NewSessionManager))
                       !! identifier)
            ∨ is_Some (identityKeyToSessions
                         (state_of (run calls NewSessionManager))
                         !! identifier)))
        (state_of (run calls NewSessionManager)).
Proof.
  assert (Hne : no_empty_set (state_of (run calls (@NewSessionManager Extra)))).
  { apply run_no_empty_set. intros key handles Hlk. simpl in Hlk.
    by rewrite lookup_empty in Hlk. }
  split; [done|]. rewrite HasSession_eq. f_equal.
  set (m := state_of (run calls NewSessionManager)) in *.
  destruct (sessions m !! identifier) as [c|].
  { symmetry. apply bool_decide_eq_true. left. by eexists. }
  destruct (identityKeyToSessions m !! identifier) as [[|x handles]|] eqn:Hlk.
  - by destruct (Hne identifier [] Hlk).
  - symmetry. apply bool_decide_eq_true. right. by eexists.
  - symmetry. apply bool_decide_eq_false. by intros [[? ?]|[? ?]].
Qed.

(** X6.  Whenever [GetSession] returns a session for an identifier,
    [HasSession] is true for it.  The converse holds in a store whose
    handle-sets list only handles of the handle index; a stale handle-set
    makes [HasSession] true where [GetSession] returns nil. *)
Theorem GetSession_implies_HasSession identifier m h :
  (∀ p w, GetSession identifier (m, h) = Returns (Some p) w →
          HasSession identifier m = Returns true m)
  ∧ (consistent m → HasSession identifier m = Returns true m →
     ∃ p cells s,
       GetSession identifier (m, h) = Returns (Some p) (m, h ++ cells)
       ∧ (h ++ cells) !! p = Some s).
Proof.
  split.
  - intros p w Hget.
    destruct (GetSession_spec identifier m h) as (r & cells & Hspec & Hpointee & Hr).
    rewrite Hget in Hspec. injection Hspec as <- ->.
    simpl in Hpointee. rewrite HasSession_eq. f_equal.
    unfold found in Hpointee.
    destruct (sessions m !! identifier); [done|].
    destruct (identityKeyToSessions m !! identifier) as [[|x handles]|]; [|done|].
    + simpl in Hpointee. apply lookup_ge_None in Hpointee. lia.
    + apply lookup_ge_None in Hpointee. lia.
  - intros Hconsistent Hhas. rewrite HasSession_eq in Hhas.
    assert (∃ s, found m identifier = Some s) as [s Hfound].
    { unfold found. destruct (sessions m !! identifier) as [c|]; [by eexists|].
      destruct (identityKeyToSessions m !! identifier) as [[|x handles]|] eqn:Hlk;
        [done | | done].
      destruct (Hconsistent identifier (x :: handles) x Hlk) as [c Hc].
      { apply elem_of_cons. by left. }
      simpl. rewrite Hc. by eexists. }
    destruct (found_Some identifier m h s Hfound) as (p & cells & Hget & Hcell & _).
    eauto.
Qed.

End StoreProperties.

Section SelectionProperties.
Context {Extra : Type}.
Implicit Types (m : SessionManager Extra) (h cells : heap Extra).
Implicit Types (s b c : PeerSession Extra) (handles : list string).
Implicit Types (cs ss : list (PeerSession Extra)).

Lemma outranks_refl s : outranks s s.
Proof. split; [done | lia]. Qed.

Lemma outranks_trans s b c : outranks s b → outranks b c → outranks s c.
Proof.
  unfold outranks. intros [Hsb1 Hsb2] [Hbc1 Hbc2]. split; [auto|].
  intros Hcs.
  destruct (IsAuthenticated s) eqn:Hs, (IsAuthenticated b) eqn:Hb,
           (IsAuthenticated c) eqn:Hc;
    try discriminate; try (specialize (Hsb1 eq_refl); discriminate);
    try (specialize (Hbc1 eq_refl); discriminate);
    specialize (Hsb2 eq_refl); specialize (Hbc2 eq_refl); lia.
Qed.

Lemma prefer_outranks b s : outranks (prefer b s) b ∧ outranks (prefer b s) s.
Proof.
  unfold prefer, outranks.
  destruct (IsAuthenticated b) eqn:Hb, (IsAuthenticated s) eqn:Hs;
    try case_bool_decide; rewrite ?Hb, ?Hs;
    repeat split; intros; try done; try lia.
Qed.

Lemma foldl_prefer_outranks b cs c :
  c ∈ b :: cs → outranks (foldl prefer b cs) c.
Proof.
  revert b c. induction cs as [|c0 cs IH]; intros b c; simpl.
  - intros ->%list_elem_of_singleton. apply outranks_refl.
  - destruct (prefer_outranks b c0) as [Hb Hc0].
    intros [->|[->|Hin]%elem_of_cons]%elem_of_cons.
    + apply (outranks_trans _ (prefer b c0)); [|done].
      apply IH, elem_of_cons. by left.
    + apply (outranks_trans _ (prefer b c0)); [|done].
      apply IH, elem_of_cons. by left.
    + apply IH, elem_of_cons. by right.
Qed.

(** X7.  What [GetSession] returns for an identity key that is not itself a
    handle is one of the sessions the handles of that identity resolve to,
    and the best of them: no session of the identity is authenticated when
    the returned one is not, and none of the same authentication status is
    more recent. *)
Theorem GetSession_returns_best identifier m h handles p w :
  sessions m !! identifier = None →
  identityKeyToSessions m !! identifier = Some handles →
  GetSession identifier (m, h) = Returns (Some p) w →
  ∃ s best_handle,
    w.2 !! p = Some s
    ∧ best_handle ∈ handles ∧ sessions m !! best_handle = Some s
    ∧ ∀ handle c, handle ∈ handles → sessions m !! handle = Some c →
                  outranks s c.
Proof.
  intros Hs Hk Hget.
  destruct (GetSession_spec identifier m h) as (r & cells & Hspec & Hpointee & Hr).
  rewrite Hget in Hspec. injection Hspec as <- ->.
  unfold found in Hpointee. rewrite Hs, Hk in Hpointee. simpl in *.
  destruct (candidates m handles) as [|b cs] eqn:Hcs; simpl in Hpointee.
  { apply lookup_ge_None in Hpointee. lia. }
  exists (foldl prefer b cs).
  assert (Hin : foldl prefer b cs ∈ candidates m handles)
    by (rewrite Hcs; apply foldl_prefer_elem).
  apply candidates_elem in Hin as (best_handle & Hbest & Hresolve).
  exists best_handle. split_and!; [done | done | done |].
  intros handle c Hhandle Hc. apply foldl_prefer_outranks. rewrite <- Hcs.
  apply candidates_elem. eauto.
Qed.

Lemma run_adds_same_identity key ss :
  ∀ m,
    Forall (λ s, is_Some (SessionNonce s) ∧ PeerIdentityKey s = Some key) ss →
    NoDup (handles_of ss) →
    ∃ m',
      run (CallAdd <$> ss) m = Returns () m'
      ∧ (∀ s handle, s ∈ ss → SessionNonce s = Some handle →
                     sessions m' !! handle = Some s)
      ∧ (∀ x, x ∉ handles_of ss → sessions m' !! x = sessions m !! x)
      ∧ identityKeyToSessions m' !! key
        = match ss with
          | [] => identityKeyToSessions m !! key
          | _ => Some (default [] (identityKeyToSessions m !! key)
                       ++ handles_of ss)
          end.
Proof.
  induction ss as [|s ss IH]; intros m Hall Hnodup.
  - exists m. split_and!; [done | | done | done].
    intros s handle Hin. by apply elem_of_nil in Hin.
  - apply Forall_cons in Hall as [[[handle Hn] Hk] Hall].
    unfold handles_of in *. simpl in Hnodup. rewrite Hn in Hnodup. simpl in Hnodup.
    apply NoDup_cons in Hnodup as [Hfresh Hnodup].
    rewrite fmap_cons, run_cons. simpl perform.
    rewrite (AddSession_both _ _ handle key) by done.
    destruct (IH (mkSessionManager (<[handle := s]> (sessions m))
                 (<[key := default [] (identityKeyToSessions m !! key)
                           ++ [handle]]> (identityKeyToSessions m))) Hall Hnodup)
      as (m' & Hrun & Hstored & Hother & Hidx).
    simpl in Hother, Hidx. rewrite lookup_insert_eq in Hidx.
    exists m'. split_and!; [done | | |].
    + intros s' handle' [->|Hin]%elem_of_cons Hn'.
      * assert (handle' = handle) as -> by congruence.
        rewrite Hother by done. apply lookup_insert_eq.
      * by apply Hstored.
    + intros x Hx. simpl in Hx. rewrite Hn in Hx. simpl in Hx.
      apply not_elem_of_cons in Hx as [Hne Hx].
      rewrite Hother by done. by rewrite lookup_insert_ne.
    + simpl. rewrite Hn. simpl. rewrite Hidx. destruct ss; simpl.
      * done.
      * by rewrite <- app_assoc.
Qed.

Lemma candidates_handles_of m ss :
  (∀ s handle, s ∈ ss → SessionNonce s = Some handle →
               sessions m !! handle = Some s) →
  Forall (λ s, is_Some (SessionNonce s)) ss →
  candidates m (handles_of ss) = ss.
Proof.
  unfold handles_of. induction ss as [|s ss IH]; intros Hstored Hall; [done|].
  apply Forall_cons in Hall as [[handle Hn] Hall]. simpl. rewrite Hn. simpl.
  rewrite (Hstored s handle) by (done || apply elem_of_cons; by left).
  f_equal. apply IH; [|done].
  intros s' handle' Hin. apply Hstored, elem_of_cons. by right.
Qed.

(** X8.  Sessions with distinct handles under one identity key are all kept.
    After adding them to the empty store one by one, the handle-set of the
    identity lists their handles in the order of the calls, every one of
    them is found under its handle, and, the identity key not being one of
    the handles, [HasSession] of the identity is true and [GetSession] of it
    returns the selection among exactly these sessions. *)
Theorem AddSession_keeps_all key ss :
  ss ≠ [] →
  Forall (λ s, is_Some (SessionNonce s) ∧ PeerIdentityKey s = Some key) ss →
  NoDup (handles_of ss) →
  key ∉ handles_of ss →
  ∃ m,
    run (CallAdd <$> ss) NewSessionManager = Returns () m
    ∧ identityKeyToSessions m !! key = Some (handles_of ss)
    ∧ (∀ s handle h, s ∈ ss → SessionNonce s = Some handle →
         GetSession handle (m, h) = Returns (Some (length h)) (m, h ++ [s]))
    ∧ HasSession key m = Returns true m
    ∧ (∀ h, retrieved (GetSession key (m, h)) = best_candidate ss
            ∧ ∃ s, best_candidate ss = Some s ∧ s ∈ ss).
Proof.
  intros Hne Hall Hnodup Hkey.
  destruct (run_adds_same_identity key ss NewSessionManager Hall Hnodup)
    as (m & Hrun & Hstored & Hother & Hidx).
  assert (Hidx' : identityKeyToSessions m !! key = Some (handles_of ss)).
  { rewrite Hidx. by destruct ss. }
  assert (Hnot : sessions m !! key = None).
  { rewrite Hother by done. apply lookup_empty. }
  exists m. split_and!; [done | done | | |].
  - intros s handle h Hin Hn.
    by apply GetSession_by_handle, Hstored.
  - rewrite HasSession_eq, Hnot, Hidx'.
    destruct ss as [|s ss']; [done|].
    apply Forall_cons in Hall as [[[handle Hn] _] _].
    unfold handles_of. simpl. by rewrite Hn.
  - intros h. rewrite GetSession_retrieved. unfold found.
    rewrite Hnot, Hidx', candidates_handles_of.
    + split; [done|]. destruct ss as [|s ss']; [done|].
      eexists. split; [done|]. apply foldl_prefer_elem.
    + done.
    + eapply Forall_impl; [exact Hall|]. by intros s [? _].
Qed.

(** X9.  Removing a session that is not stored changes nothing: when its
    handle is not a key of the handle index and is not listed under its
    identity key (whose handle-set, if any, is not empty), [RemoveSession]
    returns the store it was given. *)
Theorem RemoveSession_unknown s m handle :
  SessionNonce s = Some handle →
  sessions m !! handle = None →
  (∀ key handles,
     PeerIdentityKey s = Some key →
     identityKeyToSessions m !! key = Some handles →
     (handle ∉ handles) ∧ handles ≠ []) →
  RemoveSession s m = Returns () m.
Proof.
  intros Hn Hfree Hset. destruct m as [stored idx]; simpl in *.
  destruct (PeerIdentityKey s) as [key|] eqn:Hk.
  - rewrite (RemoveSession_both _ _ handle key) by done. simpl.
    rewrite delete_id by done. do 2 f_equal.
    destruct (idx !! key) as [handles|] eqn:Hlk; [|done].
    destruct (Hset key handles eq_refl Hlk) as [Hnotin Hne].
    rewrite (proj2 (filter_without_target handle handles) Hnotin).
    destruct handles; [done|]. by apply insert_id.
  - rewrite (RemoveSession_handle_only _ _ handle) by done. simpl.
    by rewrite delete_id.
Qed.

(** X10.  [RemoveSession] is idempotent: when it returns, removing the same
    session again returns and leaves the store as the first removal left
    it. *)
Theorem RemoveSession_idempotent s m m' :
  RemoveSession s m = Returns () m' →
  RemoveSession s m' = Returns () m'.
Proof.
  destruct (SessionNonce s) as [handle|] eqn:Hn,
           (PeerIdentityKey s) as [key|] eqn:Hk.
  - rewrite !(RemoveSession_both _ _ handle key) by done.
    intros [= <-]. simpl. rewrite delete_delete_eq. do 2 f_equal.
    destruct (identityKeyToSessions m !! key) as [handles|] eqn:Hlk.
    + destruct (filter (λ str, str ≠ handle) handles) as [|x kept] eqn:Hfilter.
      * by rewrite lookup_delete_eq.
      * rewrite lookup_insert_eq, <- Hfilter, list_filter_filter.
        rewrite (list_filter_iff _ (λ str, str ≠ handle)) by tauto.
        rewrite Hfilter. by rewrite insert_insert_eq.
    + by rewrite Hlk.
  - rewrite !(RemoveSession_handle_only _ _ handle) by done.
    intros [= <-]. simpl. by rewrite delete_delete_eq.
  - rewrite !(RemoveSession_identity_only _ _ key) by done.
    destruct (identityKeyToSessions m !! key) eqn:Hlk; [done|].
    intros [= <-]. by rewrite Hlk.
  - rewrite !RemoveSession_neither by done. by intros [= <-].
Qed.

(** X11.  The mutations fail in one way only.  [AddSession] and
    [UpdateSession] panic exactly when the session has an identity key and
    no handle; [RemoveSession] panics exactly when, in addition, that
    identity key has a handle-set in the store.  A call that panics has not
    changed the store, and every other call returns. *)
Theorem mutations_panic_exactly s m :
  (result (AddSession s m) = None ↔
   SessionNonce s = None ∧ is_Some (PeerIdentityKey s))
  ∧ (result (UpdateSession s m) = None ↔
     SessionNonce s = None ∧ is_Some (PeerIdentityKey s))
  ∧ (result (RemoveSession s m) = None ↔
     SessionNonce s = None
     ∧ ∃ key, PeerIdentityKey s = Some key
              ∧ is_Some (identityKeyToSessions m !! key))
  ∧ (result (AddSession s m) = None → state_of (AddSession s m) = m)
  ∧ (result (RemoveSession s m) = None → state_of (RemoveSession s m) = m).
Proof.
  assert (Hadd : result (AddSession s m) = None ↔
                 SessionNonce s = None ∧ is_Some (PeerIdentityKey s)).
  { destruct (SessionNonce s) as [handle|] eqn:Hn,
             (PeerIdentityKey s) as [key|] eqn:Hk.
    - rewrite (AddSession_both _ _ handle key) by done.
      split; [done | by intros [? _]].
    - rewrite (AddSession_handle_only _ _ handle) by done.
      split; [done | by intros [? _]].
    - rewrite (AddSession_identity_only _ _ key) by done. split; eauto.
    - rewrite AddSession_neither by done.
      split; [done | by intros [_ [? ?]]]. }
  split_and!; [done | done | | |].
  - destruct (SessionNonce s) as [handle|] eqn:Hn,
             (PeerIdentityKey s) as [key|] eqn:Hk.
    + rewrite (RemoveSession_both _ _ handle key) by done.
      split; [done | by intros [? _]].
    + rewrite (RemoveSession_handle_only _ _ handle) by done.
      split; [done | by intros [? _]].
    + rewrite (RemoveSession_identity_only _ _ key) by done.
      destruct (identityKeyToSessions m !! key) as [handles|] eqn:Hlk; simpl.
      * split; [|done]. intros _. split; [done|]. exists key. by rewrite Hlk.
      * split; [done|]. intros [_ (key' & [= <-] & [? Hsome])]. congruence.
    + rewrite RemoveSession_neither by done.
      split; [done | by intros [_ (? & ? & _)]].
  - intros [Hn [key Hk]]%Hadd. by rewrite (AddSession_identity_only _ _ key).
  - destruct (SessionNonce s) as [handle|] eqn:Hn,
             (PeerIdentityKey s) as [key|] eqn:Hk.
    + by rewrite (RemoveSession_both _ _ handle key).
    + by rewrite (RemoveSession_handle_only _ _ handle).
    + rewrite (RemoveSession_identity_only _ _ key) by done.
      by destruct (identityKeyToSessions m !! key).
    + by rewrite RemoveSession_neither.
Qed.

End SelectionProperties.

(** ** Properties of the mock wallet *)

Section MockWalletProperties.
Context {Protocol Certificate : Type}.
Context (K : mock_constants).
Implicit Types (ctx : context) (w : MockWallet) (e : error).
Implicit Types (options : GetPublicKeyOptions Protocol).

Ltac run_wallet :=
  unfold GetPublicKey, CreateSignature, VerifySignature, CreateNonce,
    VerifyNonce, ListCertificates, ProveCertificate, mbind, go_bind, mret,
    go_ret, get, modify; simpl.

Lemma after_nonces_live ctx n w :
  Err ctx = None →
  after_nonces K ctx n w =
  match n with
  | 0 => w
  | S _ => mkMockWallet (identityKey w) (keyDeriver w)
             (<[MockNonce K := true]> (validNonces w))
  end.
Proof.
  intros Hlive. unfold after_nonces. induction n as [|n IH]; [done|].
  simpl. rewrite IH. run_wallet. rewrite Hlive. simpl.
  destruct n; simpl; [done|]. by rewrite insert_insert_eq.
Qed.

(** X12.  Nonces round-trip through the wallet.  Under a live context
    [CreateNonce] returns [MockNonce], after which [VerifyNonce] accepts it,
    answers for every other string as before, and a second [CreateNonce]
    changes nothing more.  Starting from [NewMockWallet], after [n] calls of
    [CreateNonce] the wallet verifies exactly [MockNonce], and nothing at all
    when [n = 0]. *)
Theorem nonce_round_trip ctx w (enableKeyDeriver : bool) (n : nat) :
  Err ctx = None →
  (∃ w',
     CreateNonce K ctx w = Returns (MockNonce K, None) w'
     ∧ identityKey w' = identityKey w ∧ keyDeriver w' = keyDeriver w
     ∧ VerifyNonce ctx (MockNonce K) w' = Returns (true, None) w'
     ∧ (∀ other, other ≠ MockNonce K →
          result (VerifyNonce ctx other w') = result (VerifyNonce ctx other w))
     ∧ CreateNonce K ctx w' = Returns (MockNonce K, None) w')
  ∧ (∀ nonce,
       result (VerifyNonce ctx nonce
                 (after_nonces K ctx n (NewMockWallet K enableKeyDeriver)))
       = Some (bool_decide (0 < n ∧ nonce = MockNonce K), None)).
Proof.
  intros Hlive. split.
  - run_wallet. rewrite Hlive. eexists. split_and!; try done.
    + simpl. by rewrite lookup_insert_eq.
    + intros other Hother. simpl. by rewrite lookup_insert_ne.
    + simpl. by rewrite insert_insert_eq.
  - intros nonce. rewrite after_nonces_live by done. run_wallet.
    rewrite Hlive. simpl. do 2 f_equal. apply bool_decide_ext.
    destruct n as [|n]; simpl.
    + rewrite lookup_empty. split; [by intros [? ?] | intros [? _]; lia].
    + rewrite lookup_insert. case_decide as Heq.
      * split; [intros _; split; [lia | done] | by eexists].
      * rewrite lookup_empty. split; [by intros [? ?] | intros [_ ?]; congruence].
Qed.

(** X13.  A cancelled context stops every method before it does anything:
    each of the seven methods returns the error of the context with its zero
    value and leaves the wallet as it was; in particular no number of
    [CreateNonce] calls under a cancelled context registers a nonce. *)
Theorem cancelled_context ctx w e options (data signature : list Ascii.ascii)
    (protocolID : option Protocol) (keyID counterparty nonce verifier : string)
    (certifiers types fieldsToReveal : list string)
    (certificate : Certificate) (n : nat) :
  Err ctx = Some e →
  GetPublicKey K ctx options w = Returns (EmptyString, Some e) w
  ∧ CreateSignature K ctx data protocolID keyID counterparty w
    = Returns (None, Some e) w
  ∧ VerifySignature K ctx data signature protocolID keyID counterparty w
    = Returns (false, Some e) w
  ∧ CreateNonce K ctx w = Returns (EmptyString, Some e) w
  ∧ VerifyNonce ctx nonce w = Returns (false, Some e) w
  ∧ ListCertificates (Certificate := Certificate) ctx certifiers types w
    = Returns (None, Some e) w
  ∧ ProveCertificate ctx certificate verifier fieldsToReveal w
    = Returns (None, Some e) w
  ∧ after_nonces K ctx n w = w.
Proof.
  intros Hcancelled. run_wallet. rewrite Hcancelled. split_and!; try done.
  unfold after_nonces. induction n as [|n IH]; [done|].
  simpl. rewrite IH. run_wallet. by rewrite Hcancelled.
Qed.

(** X14.  [GetPublicKey] under a live context never changes the wallet and
    never returns a key together with an error.  It returns a key exactly
    when the request is not privileged, the wallet has a key deriver, and
    either the identity key is asked for or a protocol and a key id other
    than the empty string and a single space are given; the key is then the
    identity key of the wallet, respectively [DerivedKeyMock].  A privileged
    request fails with [ErrorNoPrivilege] whatever else it asks, and missing
    parameters are reported before a missing key deriver. *)
Theorem GetPublicKey_outcomes ctx w options :
  Err ctx = None →
  ∃ key err,
    GetPublicKey K ctx options w = Returns (key, err) w
    ∧ (err = None ↔
       Privileged options = false ∧ keyDeriver w = true
       ∧ (IdentityKey options = true
          ∨ (ProtocolID options ≠ None ∧ KeyID options ≠ EmptyString
             ∧ KeyID options ≠ " "%string)))
    ∧ (err = None →
       key = if IdentityKey options then identityKey w else DerivedKeyMock K)
    ∧ (err ≠ None → key = EmptyString)
    ∧ (Privileged options = true →
       err = Some (ErrorNew (ErrorNoPrivilege K)))
    ∧ (Privileged options = false → IdentityKey options = false →
       ProtocolID options = None ∨ KeyID options = EmptyString
       ∨ KeyID options = " "%string →
       err = Some (ErrorNew (ErrorMissingParams K))).
Proof.
  intros Hlive. run_wallet. rewrite Hlive.
  destruct (Privileged options) eqn:Hp, (IdentityKey options) eqn:Hi,
           (keyDeriver w) eqn:Hd, (ProtocolID options) as [protocol|] eqn:Hproto;
    simpl; repeat case_bool_decide; simpl;
    eexists _, _; (split; [reflexivity|]);
    repeat split; intros; try congruence;
    try (exfalso; intuition congruence);
    try (left; congruence);
    try (right; repeat split; congruence).
Qed.

End MockWalletProperties.

(** ** The further properties at concrete inputs *)

Section ConcreteMore.
Open Scope string_scope.
Open Scope list_scope.

Lemma AddSession_then_lookup_witness :
  let old := session (Some "n1") (Some "peer") false 1 in
  let s := session (Some "n1") None true 2 in
  let m := after [CallAdd old] in
  SessionNonce s = Some "n1"
  ∧ ∃ m',
      AddSession s m = Returns () m'
      ∧ UpdateSession s m = Returns () m'
      ∧ GetSession "n1" (m', [old]) = Returns (Some 1) (m', [old; s])
      ∧ HasSession "n1" m' = Returns true m'.
Proof.
  intros old s m. split; [reflexivity|].
  exact (AddSession_then_lookup s m [old] "n1" eq_refl).
Defined.

Lemma AddSession_keeps_reachable_witness :
  let old := session (Some "n1") (Some "peer") false 1 in
  let s := session (Some "n2") (Some "peer") true 2 in
  let m := after [CallAdd old] in
  let m' := after [CallAdd old; CallAdd s] in
  AddSession s m = Returns () m'
  ∧ HasSession "peer" m = Returns true m
  ∧ HasSession "peer" m' = Returns true m'
  ∧ is_Some (retrieved (GetSession "peer" (m', []))).
Proof.
  intros old s m m'.
  assert (Hadd : AddSession s m = Returns () m') by reflexivity.
  assert (Hhas : HasSession "peer" m = Returns true m) by reflexivity.
  destruct (AddSession_keeps_reachable s m m' "peer" Hadd) as [Hkeep Hget].
  split; [exact Hadd|]. split; [exact Hhas|]. split; [exact (Hkeep Hhas)|].
  apply Hget. exists old. reflexivity.
Defined.

Lemma AddSession_RemoveSession_restores_witness :
  let old := session (Some "n1") (Some "peer") false 1 in
  let s := session (Some "n2") (Some "peer") true 2 in
  let m := after [CallAdd old] in
  SessionNonce s = Some "n2" ∧ PeerIdentityKey s = Some "peer"
  ∧ sessions m !! "n2" = None
  ∧ identityKeyToSessions m !! "peer" = Some ["n1"]
  ∧ run [CallAdd s; CallRemove s] m = Returns () m.
Proof.
  intros old s m. split; [reflexivity|]. split; [reflexivity|].
  split; [reflexivity|]. split; [reflexivity|].
  apply (AddSession_RemoveSession_restores s m "n2" "peer" eq_refl eq_refl eq_refl).
  intros handles [= <-]. split; [|discriminate].
  intros [Heq|Hin%elem_of_nil]%elem_of_cons; [discriminate Heq | exact Hin].
Defined.

Lemma GetSession_implies_HasSession_witness :
  let s := session (Some "n1") (Some "peer") false 1 in
  let m := after [CallAdd s] in
  GetSession "peer" (m, []) = Returns (Some 0) (m, [s])
  ∧ HasSession "peer" m = Returns true m
  ∧ ∃ p cells c,
      GetSession "n1" (m, []) = Returns (Some p) (m, cells)
      ∧ cells !! p = Some c.
Proof.
  intros s m.
  assert (Hget : GetSession "peer" (m, []) = Returns (Some 0) (m, [s]))
    by reflexivity.
  destruct (GetSession_implies_HasSession "peer" m []) as [Hhas _].
  destruct (GetSession_implies_HasSession "n1" m []) as [_ Hconverse].
  split; [exact Hget|]. split; [exact (Hhas 0 (m, [s]) Hget)|].
  apply Hconverse; [|reflexivity].
  intros key handles handle Hlk Hin.
  destruct (decide (key = "peer")) as [->|Hne].
  - injection Hlk as <-. apply list_elem_of_singleton in Hin as ->.
    exists s. reflexivity.
  - exfalso. change (identityKeyToSessions m) with
      (<["peer" := ["n1"]]> (∅ : gmap string (list string))) in Hlk.
    rewrite lookup_insert_ne, lookup_empty in Hlk by done. discriminate Hlk.
Defined.

Lemma GetSession_returns_best_witness :
  let s1 := session (Some "n1") (Some "peer") false 2 in
  let s2 := session (Some "n2") (Some "peer") true 1 in
  let m := after [CallAdd s1; CallAdd s2] in
  sessions m !! "peer" = None
  ∧ identityKeyToSessions m !! "peer" = Some ["n1"; "n2"]
  ∧ GetSession "peer" (m, []) = Returns (Some 1) (m, [s1; s2])
  ∧ ∃ s best_handle,
      [s1; s2] !! 1 = Some s
      ∧ best_handle ∈ ["n1"; "n2"] ∧ sessions m !! best_handle = Some s
      ∧ ∀ handle c, handle ∈ ["n1"; "n2"] → sessions m !! handle = Some c →
                    outranks s c.
Proof.
  intros s1 s2 m. split; [reflexivity|]. split; [reflexivity|].
  split; [reflexivity|].
  exact (GetSession_returns_best "peer" m [] ["n1"; "n2"] 1 (m, [s1; s2])
           eq_refl eq_refl eq_refl).
Defined.

Lemma AddSession_keeps_all_witness :
  let s1 := session (Some "n1") (Some "peer") false 2 in
  let s2 := session (Some "n2") (Some "peer") true 1 in
  let s3 := session (Some "n3") (Some "peer") true 1 in
  [s1; s2; s3] ≠ []
  ∧ NoDup (handles_of [s1; s2; s3])
  ∧ ("peer" ∉ handles_of [s1; s2; s3])
  ∧ ∃ m,
      run (CallAdd <$> [s1; s2; s3]) NewSessionManager = Returns () m
      ∧ identityKeyToSessions m !! "peer" = Some ["n1"; "n2"; "n3"]
      ∧ HasSession "peer" m = Returns true m
      ∧ retrieved (GetSession "peer" (m, [])) = Some s2.
Proof.
  intros s1 s2 s3.
  assert (Hne : [s1; s2; s3] ≠ []) by discriminate.
  assert (Hnodup : NoDup (handles_of [s1; s2; s3])).
  { apply (bool_decide_unpack (NoDup (handles_of [s1; s2; s3]))).
    vm_compute. exact I. }
  assert (Hkey : "peer" ∉ handles_of [s1; s2; s3]).
  { apply (bool_decide_unpack ("peer" ∉ handles_of [s1; s2; s3])).
    vm_compute. exact I. }
  split; [exact Hne|]. split; [exact Hnodup|]. split; [exact Hkey|].
  destruct (AddSession_keeps_all "peer" [s1; s2; s3] Hne) as
    (m & Hrun & Hidx & _ & Hhas & Hget); [|exact Hnodup|exact Hkey|].
  { repeat constructor; eexists; reflexivity. }
  exists m. split; [exact Hrun|]. split; [exact Hidx|]. split; [exact Hhas|].
  exact (proj1 (Hget [])).
Defined.

Lemma RemoveSession_unknown_witness :
  let s1 := session (Some "n1") (Some "peer") false 2 in
  let stranger := session (Some "n9") (Some "peer") true 1 in
  let m := after [CallAdd s1] in
  SessionNonce stranger = Some "n9"
  ∧ sessions m !! "n9" = None
  ∧ identityKeyToSessions m !! "peer" = Some ["n1"]
  ∧ RemoveSession stranger m = Returns () m.
Proof.
  intros s1 stranger m. split; [reflexivity|]. split; [reflexivity|].
  split; [reflexivity|].
  apply (RemoveSession_unknown stranger m "n9" eq_refl eq_refl).
  intros key handles [= <-] [= <-]. split; [|discriminate].
  intros [Heq|Hin%elem_of_nil]%elem_of_cons; [discriminate Heq | exact Hin].
Defined.

Lemma RemoveSession_idempotent_witness :
  let s1 := session (Some "n1") (Some "peer") false 2 in
  let s2 := session (Some "n2") (Some "peer") true 1 in
  let m := after [CallAdd s1; CallAdd s2] in
  let m' := after [CallAdd s1; CallAdd s2; CallRemove s1] in
  RemoveSession s1 m = Returns () m'
  ∧ RemoveSession s1 m' = Returns () m'.
Proof.
  intros s1 s2 m m'.
  assert (Hfirst : RemoveSession s1 m = Returns () m') by reflexivity.
  split; [exact Hfirst|].
  exact (RemoveSession_idempotent s1 m m' Hfirst).
Defined.

Lemma mutations_panic_exactly_witness :
  let keyed := session None (Some "peer") true 1 in
  let s1 := session (Some "n1") (Some "peer") false 2 in
  let m := after [CallAdd s1] in
  SessionNonce keyed = None ∧ is_Some (PeerIdentityKey keyed)
  ∧ result (AddSession keyed m) = None
  ∧ result (RemoveSession keyed m) = None
  ∧ state_of (AddSession keyed m) = m
  ∧ state_of (RemoveSession keyed m) = m.
Proof.
  intros keyed s1 m.
  assert (Hkey : is_Some (PeerIdentityKey keyed)) by (eexists; reflexivity).
  destruct (mutations_panic_exactly keyed m)
    as (Hadd & _ & Hremove & Hadd_state & Hremove_state).
  assert (Ha : result (AddSession keyed m) = None)
    by (apply Hadd; split; [reflexivity | exact Hkey]).
  assert (Hr : result (RemoveSession keyed m) = None).
  { apply Hremove. split; [reflexivity|]. exists "peer".
    split; [reflexivity | eexists; reflexivity]. }
  split; [reflexivity|]. split; [exact Hkey|]. split; [exact Ha|].
  split; [exact Hr|]. split; [exact (Hadd_state Ha) | exact (Hremove_state Hr)].
Defined.

Lemma nonce_round_trip_witness :
  let K := mkMockConstants "02identity" "03derived" "signature" "nonce"
             "no privilege" "no key deriver" "missing parameters"
             "invalid input" in
  let ctx := mkContext None in
  Err ctx = None
  ∧ result (VerifyNonce ctx "nonce" (after_nonces K ctx 2 (NewMockWallet K true)))
    = Some (true, None)
  ∧ result (VerifyNonce ctx "other" (after_nonces K ctx 2 (NewMockWallet K true)))
    = Some (false, None)
  ∧ result (VerifyNonce ctx "nonce" (after_nonces K ctx 0 (NewMockWallet K true)))
    = Some (false, None).
Proof.
  intros K ctx. split; [reflexivity|].
  pose proof (λ n, proj2 (nonce_round_trip K ctx (NewMockWallet K true)
                            true n eq_refl)) as Hverify.
  split; [exact (Hverify 2 "nonce")|].
  split; [exact (Hverify 2 "other") | exact (Hverify 0 "nonce")].
Defined.

Lemma cancelled_context_witness :
  let K := mkMockConstants "02identity" "03derived" "signature" "nonce"
             "no privilege" "no key deriver" "missing parameters"
             "invalid input" in
  let ctx := mkContext (Some (ContextError Canceled)) in
  let w := NewMockWallet K true in
  Err ctx = Some (ContextError Canceled)
  ∧ CreateNonce K ctx w = Returns (EmptyString, Some (ContextError Canceled)) w
  ∧ GetPublicKey K ctx (mkGetPublicKeyOptions false true (Some "protocol") "1") w
    = Returns (EmptyString, Some (ContextError Canceled)) w
  ∧ after_nonces K ctx 3 w = w.
Proof.
  intros K ctx w. split; [reflexivity|].
  destruct (cancelled_context (Certificate := unit) K ctx w
              (ContextError Canceled)
              (mkGetPublicKeyOptions false true (Some "protocol") "1")
              [] [] None "1" "peer" "nonce" "verifier" [] [] [] () 3 eq_refl)
    as (Hkey & _ & _ & Hnonce & _ & _ & _ & Hafter).
  split; [exact Hnonce|]. split; [exact Hkey | exact Hafter].
Defined.

Lemma GetPublicKey_outcomes_witness :
  let K := mkMockConstants "02identity" "03derived" "signature" "nonce"
             "no privilege" "no key deriver" "missing parameters"
             "invalid input" in
  let ctx := mkContext None in
  let w := NewMockWallet K false in
  let options := mkGetPublicKeyOptions false false (@None string) " " in
  Err ctx = None
  ∧ ∃ key err,
      GetPublicKey K ctx options w = Returns (key, err) w
      ∧ key = EmptyString
      ∧ err = Some (ErrorNew "missing parameters").
Proof.
  intros K ctx w options. split; [reflexivity|].
  destruct (GetPublicKey_outcomes K ctx w options eq_refl)
    as (key & err & Hget & _ & _ & Hempty & _ & Hmissing).
  assert (Herr : err = Some (ErrorNew "missing parameters")).
  { apply Hmissing; [reflexivity | reflexivity | left; reflexivity]. }
  exists key, err. split; [exact Hget|]. split; [|exact Herr].
  apply Hempty. rewrite Herr. discriminate.
Defined.

End ConcreteMore.

(** ** Index consistency under every sequence of calls *)

Section Consistency.
Context {Extra : Type}.
Implicit Types (m : SessionManager Extra) (s : PeerSession Extra).
Implicit Types (handles : list string).

Lemma AddSession_consistent s m :
  consistent m → consistent (state_of (AddSession s m)).
Proof.
  intros Hm. destruct (SessionNonce s) as [handle|] eqn:Hn.
  - destruct (AddSession_with_handle s m handle Hn)
      as (m' & -> & Hsessions & Hwith & Hwithout). simpl.
    assert (Hgrow : ∀ x, is_Some (sessions m !! x) → is_Some (sessions m' !! x)).
    { intros x Hx. rewrite Hsessions, lookup_insert. by case_decide. }
    intros key handles x. destruct (PeerIdentityKey s) as [key'|].
    + rewrite (Hwith key' eq_refl), lookup_insert. case_decide as Hkey.
      * intros [= <-] [Hx | ->%list_elem_of_singleton]%elem_of_app.
        -- destruct (identityKeyToSessions m !! key') as [old|] eqn:Hlk;
             simpl in Hx; [|by apply elem_of_nil in Hx].
           by apply Hgrow, (Hm key' old).
        -- by rewrite Hsessions, lookup_insert_eq.
      * intros Hlk Hx. by apply Hgrow, (Hm key handles).
    + rewrite Hwithout by done. intros Hlk Hx. by apply Hgrow, (Hm key handles).
  - destruct (PeerIdentityKey s) as [key|] eqn:Hk.
    + by rewrite (AddSession_identity_only _ _ key).
    + by rewrite AddSession_neither.
Qed.

Lemma RemoveSession_consistent s m m' :
  consistent m → RemoveSession s m = Returns () m' →
  (consistent m' ↔ removable s m).
Proof.
  intros Hm. unfold removable.
  destruct (SessionNonce s) as [handle|] eqn:Hn.
  2:{ intros Hremove. assert (m' = m) as ->.
      { destruct (PeerIdentityKey s) as [key|] eqn:Hk.
        - rewrite (RemoveSession_identity_only _ _ key) in Hremove by done.
          destruct (identityKeyToSessions m !! key); congruence.
        - rewrite RemoveSession_neither in Hremove by done. congruence. }
      split; [by intros _ ? ? ? [=] | done]. }
  assert (Hshape : ∃ idx',
    RemoveSession s m = Returns ()
      (mkSessionManager (delete handle (sessions m)) idx')
    ∧ (∀ other, PeerIdentityKey s ≠ Some other →
         idx' !! other = identityKeyToSessions m !! other)
    ∧ (∀ key handles, idx' !! key = Some handles →
         PeerIdentityKey s = Some key → handle ∉ handles)
    ∧ (∀ key handles x, idx' !! key = Some handles → x ∈ handles →
         ∃ old, identityKeyToSessions m !! key = Some old ∧ x ∈ old)).
  { destruct (PeerIdentityKey s) as [key|] eqn:Hk.
    - rewrite (RemoveSession_both _ _ handle key) by done.
      eexists; split; [done|].
      destruct (identityKeyToSessions m !! key) as [old|] eqn:Hlk.
      + destruct (filter (λ str, str ≠ handle) old) as [|y kept] eqn:Hfilter.
        * split_and!.
          -- intros other Hother. rewrite lookup_delete_ne; [done | congruence].
          -- intros key' handles Hlk' [= <-]. by rewrite lookup_delete_eq in Hlk'.
          -- intros key' handles x. rewrite lookup_delete. case_decide; [done|].
             eauto.
        * split_and!.
          -- intros other Hother. rewrite lookup_insert_ne; [done | congruence].
          -- intros key' handles Hlk' [= <-]. rewrite lookup_insert_eq in Hlk'.
             injection Hlk' as <-. rewrite <- Hfilter, list_elem_of_filter. tauto.
          -- intros key' handles x. rewrite lookup_insert.
             case_decide as Hkey; [|eauto]. subst key'. intros [= <-] Hx.
             rewrite <- Hfilter in Hx. apply list_elem_of_filter in Hx as [_ Hx].
             eauto.
      + split_and!; [done | | eauto].
        intros key' handles Hlk' [= <-]. congruence.
    - rewrite (RemoveSession_handle_only _ _ handle) by done.
      eexists; split; [done|]. split_and!; [done | done | eauto]. }
  destruct Hshape as (idx' & Hremove & Hother & Hown & Hsub).
  rewrite Hremove. intros [= <-]. split.
  - intros Hm' handle' key handles [= <-] Hlk Hin.
    destruct (decide (PeerIdentityKey s = Some key)) as [|Hne]; [done|].
    exfalso. destruct (Hm' key handles handle) as [c Hc]; simpl.
    + by rewrite Hother.
    + done.
    + simpl in Hc. by rewrite lookup_delete_eq in Hc.
  - intros Hremovable key handles x Hlk Hx. simpl in *.
    destruct (Hsub key handles x Hlk Hx) as (old & Hold & Hxold).
    rewrite lookup_delete_ne; [by apply (Hm key old)|].
    intros <-. apply (Hown key handles Hlk); [|done].
    by apply (Hremovable handle key old).
Qed.

Lemma RemoveSession_panic_frame s m e m1 :
  RemoveSession s m = Panics e m1 → m1 = m.
Proof.
  destruct (SessionNonce s) as [handle|] eqn:Hn,
           (PeerIdentityKey s) as [key|] eqn:Hk.
  - by rewrite (RemoveSession_both _ _ handle key).
  - by rewrite (RemoveSession_handle_only _ _ handle).
  - rewrite (RemoveSession_identity_only _ _ key) by done.
    destruct (identityKeyToSessions m !! key); congruence.
  - by rewrite RemoveSession_neither.
Qed.

Lemma run_permitted (calls : list (@call Extra)) :
  ∀ m, consistent m → permitted_run calls m →
       consistent (state_of (run calls m)).
Proof.
  induction calls as [|c calls IH]; intros m Hm Hcalls; [done|].
  destruct Hcalls as [Hc Hrest]. rewrite run_cons.
  assert (Hstep : consistent (state_of (perform c m))).
  { destruct c as [s|s|s]; simpl in *;
      [by apply AddSession_consistent | by apply AddSession_consistent |].
    destruct (RemoveSession s m) as [[] m1|e m1] eqn:Hremove; simpl.
    - by apply (RemoveSession_consistent s m m1).
    - by rewrite (RemoveSession_panic_frame s m e m1 Hremove). }
  destruct (perform c m) as [[] m1|e m1]; simpl in *; [by apply IH | done].
Qed.

End Consistency.

Section ConsistencyClaim.
Context {Extra : Type}.
Implicit Types (m : SessionManager Extra) (s : PeerSession Extra).

(** C3, as the code has it.  Index consistency (every handle of every
    handle-set has an entry in the handle index) is kept by [AddSession] and
    [UpdateSession] for every record, and by a [RemoveSession] that returns
    exactly when the handle of its session is listed under no identity key
    other than the one the session carries.  So it holds in the state
    reached from the empty store by every sequence of calls whose removals
    all meet that condition.  [RemoveSession] of a session with handle and
    identity key cleans up both sides for that session: the handle leaves
    the handle index and the handle-set of that identity key, while every
    other handle-set and every other entry of the handle index stay as they
    were. *)
Theorem consistent_unless_removed_elsewhere :
  (∀ s m, consistent m →
     consistent (state_of (AddSession s m))
     ∧ consistent (state_of (UpdateSession s m)))
  ∧ (∀ s m m', consistent m → RemoveSession s m = Returns () m' →
       (consistent m' ↔ removable s m))
  ∧ (∀ calls : list (@call Extra),
       permitted_run calls NewSessionManager →
       consistent (state_of (run calls NewSessionManager)))
  ∧ (∀ m s handle key,
       SessionNonce s = Some handle → PeerIdentityKey s = Some key →
       ∃ m', RemoveSession s m = Returns () m'
         ∧ sessions m' !! handle = None
         ∧ (∀ handles, identityKeyToSessions m' !! key = Some handles →
              handle ∉ handles)
         ∧ (∀ other, other ≠ key →
              identityKeyToSessions m' !! other
              = identityKeyToSessions m !! other)
         ∧ (∀ other, other ≠ handle →
              sessions m' !! other = sessions m !! other)).
Proof.
  split_and!.
  - intros s m Hm. split; by apply AddSession_consistent.
  - apply RemoveSession_consistent.
  - intros calls. apply run_permitted.
    intros key handles handle Hlk. simpl in Hlk. by rewrite lookup_empty in Hlk.
  - intros m s handle key Hn Hk.
    destruct (RemoveSession_cleans s m handle key Hn Hk)
      as (m' & Hremove & Hgone & Hset).
    exists m'. split_and!; [done | done | done | |].
    + rewrite (RemoveSession_both _ _ handle key) in Hremove by done.
      injection Hremove as <-. intros other Hother. simpl.
      destruct (identityKeyToSessions m !! key) as [handles|]; [|done].
      destruct (filter _ handles).
      * by rewrite lookup_delete_ne.
      * by rewrite lookup_insert_ne.
    + rewrite (RemoveSession_both _ _ handle key) in Hremove by done.
      injection Hremove as <-. intros other Hother. simpl.
      by rewrite lookup_delete_ne.
Qed.

End ConsistencyClaim.

Section SignatureRoundTrip.
Context {Protocol : Type}.
Context (K : mock_constants).
Implicit Types (ctx : context) (w : MockWallet).

(** X15.  Signatures round-trip through the wallet.  Under a live context
    [CreateSignature] succeeds exactly when the data is not empty and the
    key id and the counterparty are not empty strings; it then returns the
    bytes of [MockSignature] and no error, and otherwise no signature and
    [ErrorInvalidInput].  The signature it returns is accepted by
    [VerifySignature] for any data, protocol, key id and counterparty, and
    [VerifySignature] accepts a signature exactly when its bytes are those
    of [MockSignature].  Neither method changes the wallet. *)
Theorem signature_round_trip ctx w (data : list Ascii.ascii)
    (protocolID : option Protocol) (keyID counterparty : string) :
  Err ctx = None →
  ∃ sig err,
    CreateSignature K ctx data protocolID keyID counterparty w
    = Returns (sig, err) w
    ∧ (err = None ↔
       data ≠ [] ∧ keyID ≠ EmptyString ∧ counterparty ≠ EmptyString)
    ∧ (err = None → sig = Some (bytes_of_string (MockSignature K)))
    ∧ (err ≠ None →
       sig = None ∧ err = Some (ErrorNew (ErrorInvalidInput K)))
    ∧ (∀ signature, sig = Some signature →
       ∀ (data' : list Ascii.ascii) (protocolID' : option Protocol)
         (keyID' counterparty' : string),
         VerifySignature K ctx data' signature protocolID' keyID' counterparty' w
         = Returns (true, None) w)
    ∧ (∀ (signature data' : list Ascii.ascii) (protocolID' : option Protocol)
         (keyID' counterparty' : string),
         VerifySignature K ctx data' signature protocolID' keyID' counterparty' w
         = Returns (true, None) w
         ↔ signature = bytes_of_string (MockSignature K)).
Proof.
  intros Hlive.
  unfold CreateSignature, VerifySignature, mbind, go_bind, mret, go_ret. simpl.
  rewrite Hlive.
  assert (Hverify : ∀ signature : list Ascii.ascii,
    bool_decide (string_of_bytes signature = MockSignature K) = true
    ↔ signature = bytes_of_string (MockSignature K)).
  { intros signature. rewrite bool_decide_eq_true.
    unfold string_of_bytes, bytes_of_string. split.
    - intros <-. by rewrite String.list_ascii_of_string_of_list_ascii.
    - intros ->. apply String.string_of_list_ascii_of_string. }
  assert (Hlast : ∀ (signature data' : list Ascii.ascii)
      (protocolID' : option Protocol) (keyID' counterparty' : string),
    Returns (bool_decide (string_of_bytes signature = MockSignature K),
             @None error) w = Returns (true, None) w
    ↔ signature = bytes_of_string (MockSignature K)).
  { intros signature _ _ _ _. rewrite <- Hverify. split; [by intros [= ->] |].
    by intros ->. }
  destruct data as [|byte data]; simpl.
  { eexists _, _. split_and!; try done. split; [done | by intros [? _]]. }
  destruct (decide (keyID = EmptyString)) as [->|Hk]; simpl.
  { eexists _, _. split_and!; try done. split; [done | by intros (_ & ? & _)]. }
  rewrite (bool_decide_eq_false_2 (keyID = EmptyString)) by done. simpl.
  destruct (decide (counterparty = EmptyString)) as [->|Hc]; simpl.
  { eexists _, _. split_and!; try done. split; [done | by intros (_ & _ & ?)]. }
  rewrite bool_decide_eq_false_2 by done.
  eexists _, _. split_and!; try done.
  intros signature [= <-] data' protocolID' keyID' counterparty'.
  by rewrite (proj2 (Hverify _)).
Qed.

End SignatureRoundTrip.

(** ** Reads of the store whose [*string] fields are pointers *)

Section RefReads.
Context {Extra : Type}.
Implicit Types (m : Ref.SessionManager Extra) (mem : Ref.memory Extra).
Implicit Types (s b : Ref.PeerSession Extra) (cells : list (Ref.PeerSession Extra)).
Implicit Types (v : option (Ref.PeerSession Extra)) (r best : option nat).

Local Abbreviation grow mem cells :=
  (Ref.mkMemory (Ref.strings mem) (Ref.records mem ++ cells)).

Ltac run_ref :=
  unfold Ref.GetSession, Ref.getBestSession, Ref.getBestSession_body,
    Ref.HasSession, Ref.new, Ref.load, Ref.store, mbind, go_bind, mret,
    go_ret, get, modify, deref; simpl.

Lemma grow_nil mem : grow mem [] = mem.
Proof. destruct mem. simpl. by rewrite app_nil_r. Qed.

Lemma grow_grow mem cells1 cells2 :
  grow (grow mem cells1) cells2 = grow mem (cells1 ++ cells2).
Proof. simpl. by rewrite app_assoc. Qed.

Lemma resolve_strings mem mem' s :
  Ref.strings mem' = Ref.strings mem → resolve mem' s = resolve mem s.
Proof. unfold resolve. by intros ->. Qed.

Lemma Ref_body_spec handle best m mem :
  Ref.valid mem best →
  ∃ r cells,
    Ref.getBestSession_body handle best (m, mem) = Returns r (m, grow mem cells)
    ∧ Ref.valid (grow mem cells) r
    ∧ Ref.pointee (grow mem cells) r = Ref.advance m (Ref.pointee mem best) handle
    ∧ ((r = best ∧ cells = [])
       ∨ (r = Some (length (Ref.records mem)) ∧ length cells = 1)).
Proof.
  intros Hvalid. unfold Ref.advance. run_ref.
  destruct (Ref.sessions m !! handle) as [s|].
  2:{ exists best, []. rewrite grow_nil. split_and!; auto. }
  assert (Hfresh : ∃ r cells,
    Returns (Some (length (Ref.records mem))) (m, grow mem [s])
    = Returns r (m, grow mem cells)
    ∧ Ref.valid (grow mem cells) r
    ∧ Ref.pointee (grow mem cells) r = Some s
    ∧ ((r = best ∧ cells = [])
       ∨ (r = Some (length (Ref.records mem)) ∧ length cells = 1))).
  { exists (Some (length (Ref.records mem))), [s]. simpl.
    rewrite length_app. simpl.
    split_and!; [done | lia | | by right].
    by apply list_lookup_middle. }
  destruct best as [p|]; simpl in *; [|done].
  destruct (lookup_lt_is_Some_2 (Ref.records mem) p Hvalid) as [b Hb].
  rewrite Hb. simpl. unfold Ref.keep.
  destruct (Ref.IsAuthenticated s && negb (Ref.IsAuthenticated b)); [done|].
  destruct (bool_decide _ && After _ _); [done|].
  exists (Some p), []. rewrite grow_nil. simpl. split_and!; auto.
Qed.

Lemma Ref_loop_spec handles :
  ∀ best m mem,
    Ref.valid mem best →
    ∃ r cells,
      for_range handles Ref.getBestSession_body best (m, mem)
      = Returns r (m, grow mem cells)
      ∧ Ref.valid (grow mem cells) r
      ∧ Ref.pointee (grow mem cells) r
        = foldl (Ref.advance m) (Ref.pointee mem best) handles
      ∧ ((r = best ∧ cells = [])
         ∨ (∃ p, r = Some p ∧ length (Ref.records mem) ≤ p)).
Proof.
  induction handles as [|handle rest IH]; intros best m mem Hvalid.
  - exists best, []. rewrite grow_nil. simpl. split_and!; auto.
  - destruct (Ref_body_spec handle best m mem Hvalid)
      as (r1 & cells1 & Hbody & Hvalid1 & Hpointee1 & Hfresh1).
    destruct (IH r1 m (grow mem cells1) Hvalid1)
      as (r & cells & Hloop & Hvalid2 & Hpointee & Hfresh).
    rewrite grow_grow in Hloop, Hvalid2, Hpointee.
    exists r, (cells1 ++ cells). split_and!; [| done | |].
    + simpl. unfold mbind, go_bind. by rewrite Hbody.
    + by rewrite Hpointee, Hpointee1.
    + destruct Hfresh as [[-> ->] | (p & -> & Hp)].
      * rewrite app_nil_r.
        destruct Hfresh1 as [[-> ->] | [-> _]]; [by left | right; eauto].
      * right. exists p. split; [done|]. simpl in Hp.
        rewrite length_app in Hp. lia.
Qed.

Lemma Ref_GetSession_spec identifier m mem :
  ∃ r cells,
    Ref.GetSession identifier (m, mem) = Returns r (m, grow mem cells)
    ∧ Ref.pointee (grow mem cells) r = Ref.found m identifier
    ∧ match r with
      | Some p => length (Ref.records mem) ≤ p < length (Ref.records mem ++ cells)
      | None => cells = []
      end.
Proof.
  unfold Ref.found. run_ref.
  destruct (Ref.sessions m !! identifier) as [s|].
  { exists (Some (length (Ref.records mem))), [s]. simpl.
    rewrite length_app. simpl.
    split_and!; [done | by apply list_lookup_middle | lia | lia]. }
  destruct (Ref.identityKeyToSessions m !! identifier) as [handles|].
  2:{ exists None, []. by rewrite grow_nil. }
  destruct (Ref_loop_spec handles None m mem I)
    as (r & cells & Hloop & Hvalid & Hpointee & Hfresh).
  exists r, cells. split_and!; [done | done |].
  destruct Hfresh as [[-> ->] | (p & -> & Hp)]; [done|].
  simpl in Hvalid. lia.
Qed.

Lemma Ref_retrieved_found identifier m mem :
  Ref.retrieved (Ref.GetSession identifier (m, mem)) = Ref.found m identifier.
Proof.
  destruct (Ref_GetSession_spec identifier m mem) as (r & cells & -> & Hpointee & _).
  rewrite <- Hpointee. by destruct r.
Qed.

Lemma Ref_seen_found identifier m mem :
  seen (Ref.GetSession identifier (m, mem))
  = resolve mem <$> Ref.found m identifier.
Proof.
  destruct (Ref_GetSession_spec identifier m mem) as (r & cells & -> & Hpointee & _).
  rewrite <- Hpointee. destruct r as [p|]; [|done]. simpl.
  by destruct (_ !! p) as [s|].
Qed.

Lemma Ref_keep_either b s : Ref.keep b s = b ∨ Ref.keep b s = s.
Proof.
  unfold Ref.keep.
  destruct (_ && negb _); [by right|]. destruct (_ && After _ _); auto.
Qed.

Lemma Ref_found_stored identifier m s :
  Ref.found m identifier = Some s →
  ∃ handle, Ref.sessions m !! handle = Some s.
Proof.
  unfold Ref.found.
  destruct (Ref.sessions m !! identifier) as [s'|] eqn:Hs.
  { intros [= <-]. eauto. }
  destruct (Ref.identityKeyToSessions m !! identifier) as [handles|]; [|done].
  assert (Hfold : ∀ v,
    (∀ b, v = Some b → ∃ handle, Ref.sessions m !! handle = Some b) →
    ∀ b, foldl (Ref.advance m) v handles = Some b →
         ∃ handle, Ref.sessions m !! handle = Some b).
  { induction handles as [|handle rest IH]; intros v Hv b; simpl; [apply Hv|].
    apply IH. intros b'. unfold Ref.advance.
    destruct (Ref.sessions m !! handle) as [c|] eqn:Hc; [|apply Hv].
    intros [= <-]. destruct v as [best|]; [|eauto].
    destruct (Ref_keep_either best c) as [-> | ->]; eauto. }
  apply Hfold. by intros b [=].
Qed.

(** C9, as the code has it.  [GetSession] and [HasSession] return and leave
    both indexes and every string cell as they were; [GetSession] only adds
    record cells.  The pointer [GetSession] returns addresses a fresh cell
    that holds a copy of a stored record, pointer fields included.
    Assigning any record through it (so also any of its fields) changes
    neither the indexes nor the strings, and every later [GetSession]
    retrieves the record, and shows the session, it would have without the
    assignment.  Whatever is written to memory, [GetSession] keeps
    returning a copy of the same stored record; the copy being shallow, a
    write through its [SessionNonce] or [PeerIdentityKey] pointer is a
    write to the string the stored record points at. *)
Theorem reads_copy_the_record identifier m mem :
  (∃ r cells, Ref.GetSession identifier (m, mem) = Returns r (m, grow mem cells))
  ∧ (∃ present, Ref.HasSession identifier (m, mem) = Returns present (m, mem))
  ∧ (∀ p w, Ref.GetSession identifier (m, mem) = Returns (Some p) w →
       Ref.records mem !! p = None
       ∧ (∃ handle s, Ref.sessions m !! handle = Some s
                      ∧ Ref.records w.2 !! p = Some s)
       ∧ ∀ changed later,
           ∃ w', Ref.store p changed w = Returns () w'
             ∧ w'.1 = m ∧ Ref.strings w'.2 = Ref.strings mem
             ∧ Ref.retrieved (Ref.GetSession later w')
               = Ref.retrieved (Ref.GetSession later (m, mem))
             ∧ seen (Ref.GetSession later w')
               = seen (Ref.GetSession later (m, mem)))
  ∧ (∀ mem' later,
       Ref.retrieved (Ref.GetSession later (m, mem'))
       = Ref.retrieved (Ref.GetSession later (m, mem))
       ∧ (Ref.strings mem' = Ref.strings mem →
          seen (Ref.GetSession later (m, mem'))
          = seen (Ref.GetSession later (m, mem))))
  ∧ (∀ (field : Ref.PeerSession Extra → option nat) p value
       (w w' : Ref.SessionManager Extra * Ref.memory Extra),
       Ref.store_string field p value w = Returns () w' →
       ∃ session a,
         Ref.records w.2 !! p = Some session ∧ field session = Some a
         ∧ w'.1 = w.1 ∧ Ref.records w'.2 = Ref.records w.2
         ∧ Ref.strings w'.2 = <[a := value]> (Ref.strings w.2)).
Proof.
  split_and!.
  - destruct (Ref_GetSession_spec identifier m mem) as (r & cells & Hget & _).
    eauto.
  - run_ref. destruct (Ref.sessions m !! identifier); [eauto|].
    destruct (Ref.identityKeyToSessions m !! identifier); eauto.
  - intros p w Hget.
    destruct (Ref_GetSession_spec identifier m mem)
      as (r & cells & Hget' & Hpointee & Hr).
    rewrite Hget in Hget'. injection Hget' as <- ->. simpl in *.
    split_and!.
    + apply lookup_ge_None. lia.
    + destruct (Ref.found m identifier) as [s|] eqn:Hfound.
      * destruct (Ref_found_stored identifier m s Hfound) as [handle Hs]. eauto.
      * apply lookup_ge_None in Hpointee. lia.
    + intros changed later. eexists. split; [done|]. simpl.
      split_and!; [done | done | by rewrite !Ref_retrieved_found |].
      rewrite !Ref_seen_found. f_equal.
  - intros mem' later. split; [by rewrite !Ref_retrieved_found|].
    intros Hstrings. rewrite !Ref_seen_found.
    destruct (Ref.found m later) as [s|]; [|done]. simpl. f_equal.
    by apply resolve_strings.
  - intros field p value [m0 mem0] w'. unfold Ref.store_string, Ref.deref_string.
    run_ref.
    destruct (Ref.records mem0 !! p) as [session|]; [|done]. simpl.
    destruct (field session) as [a|] eqn:Hfield; [|done]. simpl.
    destruct (Ref.strings mem0 !! a); [|done]. simpl.
    intros [= <-]. exists session, a. done.
Qed.

End RefReads.

(** ** The two embeddings agree while the strings are not written *)

Section Agreement.
Context {Extra : Type}.
Implicit Types (m : Ref.SessionManager Extra) (mem : Ref.memory Extra).
Implicit Types (s b : Ref.PeerSession Extra).
Implicit Types (v : option (Ref.PeerSession Extra)).

Lemma resolve_keep mem b s :
  resolve mem (Ref.keep b s) = prefer (resolve mem b) (resolve mem s).
Proof.
  rewrite <- tests_prefer. unfold Ref.keep. simpl.
  destruct (Ref.IsAuthenticated s && negb (Ref.IsAuthenticated b)); [done|].
  by destruct (bool_decide _ && After _ _).
Qed.

Lemma resolve_advance mem m v handle :
  resolve mem <$> Ref.advance m v handle
  = advance (resolve_manager mem m) handle (resolve mem <$> v).
Proof.
  unfold Ref.advance, advance. simpl. rewrite lookup_fmap.
  destruct (Ref.sessions m !! handle) as [s|]; simpl; [|done].
  destruct v as [b|]; simpl; [|done]. by rewrite resolve_keep.
Qed.

Lemma resolve_foldl mem m handles :
  ∀ v, resolve mem <$> foldl (Ref.advance m) v handles
       = select (resolve mem <$> v) (candidates (resolve_manager mem m) handles).
Proof.
  induction handles as [|handle rest IH]; intros v.
  - by destruct v.
  - simpl foldl. by rewrite IH, resolve_advance, <- select_advance.
Qed.

Lemma resolve_found mem m identifier :
  resolve mem <$> Ref.found m identifier
  = found (resolve_manager mem m) identifier.
Proof.
  unfold Ref.found, found. simpl. rewrite lookup_fmap.
  destruct (Ref.sessions m !! identifier) as [s|]; simpl; [done|].
  destruct (Ref.identityKeyToSessions m !! identifier) as [handles|]; [|done].
  by rewrite resolve_foldl.
Qed.

(** What a caller sees of a [Ref.GetSession] result is what [GetSession]
    retrieves from the store read through the strings as they are. *)
Lemma GetSession_agree identifier m mem (h : heap Extra) :
  seen (Ref.GetSession identifier (m, mem))
  = retrieved (GetSession identifier (resolve_manager mem m, h)).
Proof. by rewrite Ref_seen_found, GetSession_retrieved, resolve_found. Qed.

(** [Ref.AddSession] leaves memory alone and does to the store what
    [AddSession] does to the store as read. *)
Lemma AddSession_agree s m mem w :
  Ref.AddSession s (m, mem) = Returns () w →
  w.2 = mem
  ∧ AddSession (resolve mem s) (resolve_manager mem m)
    = Returns () (resolve_manager mem w.1).
Proof.
  unfold Ref.AddSession, Ref.addSessionByIdentityKey, Ref.deref_string,
    Ref.set_sessions, Ref.set_identityKeyToSessions, mbind, go_bind, mret,
    go_ret, get, modify, deref. simpl.
  destruct (Ref.SessionNonce s) as [a|] eqn:Ha; simpl.
  - destruct (Ref.strings mem !! a) as [handle|] eqn:Hhandle; simpl; [|done].
    destruct (Ref.PeerIdentityKey s) as [k|] eqn:Hk; simpl.
    + destruct (Ref.strings mem !! k) as [key|] eqn:Hkey; simpl; [|done].
      rewrite (AddSession_both _ _ handle key)
        by (unfold resolve; simpl; by rewrite ?Ha, ?Hk).
      destruct (Ref.identityKeyToSessions m !! key) as [handles|] eqn:Hlk;
        simpl; rewrite Hhandle; simpl; intros [= <-]; (split; [done|]);
        unfold resolve_manager; simpl; by rewrite fmap_insert, Hlk.
    + rewrite (AddSession_handle_only _ _ handle)
        by (unfold resolve; simpl; by rewrite ?Ha, ?Hk).
      intros [= <-]. split; [done|]. unfold resolve_manager. simpl.
      by rewrite fmap_insert.
  - destruct (Ref.PeerIdentityKey s) as [k|] eqn:Hk; simpl.
    + destruct (Ref.strings mem !! k) as [key|]; simpl; [|done].
      by destruct (Ref.identityKeyToSessions m !! key).
    + rewrite AddSession_neither by (unfold resolve; simpl; by rewrite ?Ha, ?Hk).
      intros [= <-]. split; [done|]. by destruct m.
Qed.

End Agreement.

(** ** Index consistency, shared strings and signatures at concrete inputs *)

Section ConcreteLast.
Open Scope string_scope.
Open Scope list_scope.

Lemma consistent_unless_removed_elsewhere_witness :
  let pending := session (Some "n1") None false 0 in
  let identified := session (Some "n1") (Some "peer") true 1 in
  let calls := [CallAdd pending; CallUpdate identified; CallRemove identified] in
  permitted_run calls NewSessionManager
  ∧ consistent (state_of (run calls NewSessionManager))
  ∧ consistent (after [CallAdd pending; CallUpdate identified])
  ∧ removable identified (after [CallAdd pending; CallUpdate identified])
  ∧ ∃ m', RemoveSession identified (after [CallAdd pending; CallUpdate identified])
          = Returns () m'
      ∧ sessions m' !! "n1" = None
      ∧ ∀ handles, identityKeyToSessions m' !! "peer" = Some handles →
                   "n1" ∉ handles.
Proof.
  intros pending identified calls.
  assert (Hremovable :
    removable identified (after [CallAdd pending; CallUpdate identified])).
  { intros handle key handles [= <-] Hlk Hin.
    destruct (decide (key = "peer")) as [->|Hne]; [done|]. exfalso.
    change (identityKeyToSessions (after [CallAdd pending; CallUpdate identified]))
      with (<["peer" := ["n1"]]> (∅ : gmap string (list string))) in Hlk.
    rewrite lookup_insert_ne, lookup_empty in Hlk by done. discriminate Hlk. }
  assert (Hcalls : permitted_run calls NewSessionManager).
  { split; [exact I|]. split; [exact I|]. split; [exact Hremovable | exact I]. }
  destruct (@consistent_unless_removed_elsewhere unit)
    as (_ & _ & Hrun & Hcleans).
  split; [exact Hcalls|]. split; [exact (Hrun calls Hcalls)|].
  split.
  { apply (Hrun [CallAdd pending; CallUpdate identified]).
    split; [exact I|]. split; exact I. }
  split; [exact Hremovable|].
  destruct (Hcleans (after [CallAdd pending; CallUpdate identified])
              identified "n1" "peer" eq_refl eq_refl)
    as (m' & Hremove & Hgone & Hset & _).
  exists m'. split; [exact Hremove|]. split; [exact Hgone | exact Hset].
Defined.

(** A caller that writes through the [SessionNonce] pointer of the record
    [GetSession] returned writes the string the stored record points at:
    the indexes stay as they were, and the session retrieved next under the
    same handle shows the new string. *)
Lemma write_through_copy_reaches_store :
  let mem := Ref.mkMemory ["n1"; "peer"] [] in
  let s := Ref.mkPeerSession (Some 0) (Some 1) true 0%Z () in
  let w1 := state_of (Ref.AddSession s (Ref.NewSessionManager, mem)) in
  let w2 := state_of (Ref.GetSession "n1" w1) in
  let w3 := state_of (Ref.store_string Ref.SessionNonce 0 "changed" w2) in
  Ref.AddSession s (Ref.NewSessionManager, mem) = Returns () w1
  ∧ Ref.GetSession "n1" w1 = Returns (Some 0) w2
  ∧ Ref.store_string Ref.SessionNonce 0 "changed" w2 = Returns () w3
  ∧ w3.1 = w1.1
  ∧ seen (Ref.GetSession "n1" w2)
    = Some (session (Some "n1") (Some "peer") true 0)
  ∧ seen (Ref.GetSession "n1" w3)
    = Some (session (Some "changed") (Some "peer") true 0)
  ∧ seen (Ref.GetSession "n1" w3) ≠ seen (Ref.GetSession "n1" w2).
Proof.
  split_and!; by vm_compute.
Qed.

Lemma reads_copy_the_record_witness :
  let mem := Ref.mkMemory ["n1"; "peer"] [] in
  let s := Ref.mkPeerSession (Some 0) (Some 1) true 0%Z () in
  let changed := Ref.mkPeerSession None (Some 1) false 9%Z () in
  let m := (state_of (Ref.AddSession s (Ref.NewSessionManager, mem))).1 in
  Ref.GetSession "peer" (m, mem)
  = Returns (Some 0) (m, Ref.mkMemory ["n1"; "peer"] [s])
  ∧ Ref.sessions m !! "n1" = Some s
  ∧ ∃ w', Ref.store 0 changed (m, Ref.mkMemory ["n1"; "peer"] [s]) = Returns () w'
      ∧ w'.1 = m ∧ Ref.records w'.2 = [changed]
      ∧ seen (Ref.GetSession "n1" w')
        = Some (session (Some "n1") (Some "peer") true 0).
Proof.
  intros mem s changed m.
  assert (Hget : Ref.GetSession "peer" (m, mem)
                 = Returns (Some 0) (m, Ref.mkMemory ["n1"; "peer"] [s]))
    by reflexivity.
  split; [exact Hget|]. split; [reflexivity|].
  destruct (reads_copy_the_record "peer" m mem) as (_ & _ & Hcopy & _).
  destruct (Hcopy 0 _ Hget) as (_ & _ & Hassign).
  destruct (Hassign changed "n1") as (w' & Hstore & Hm & _ & _ & Hseen).
  exists w'. split; [exact Hstore|]. split; [exact Hm|]. split.
  - injection Hstore as <-. reflexivity.
  - rewrite Hseen. reflexivity.
Defined.

Lemma signature_round_trip_witness :
  let K := mkMockConstants "02identity" "03derived" "signature" "nonce"
             "no privilege" "no key deriver" "missing parameters"
             "invalid input" in
  let ctx := mkContext None in
  let w := NewMockWallet K true in
  Err ctx = None
  ∧ CreateSignature K ctx (bytes_of_string "payload") (Some "protocol")
      "1" "peer" w = Returns (Some (bytes_of_string "signature"), None) w
  ∧ VerifySignature K ctx [] (bytes_of_string "signature") (@None string)
      EmptyString EmptyString w = Returns (true, None) w
  ∧ VerifySignature K ctx (bytes_of_string "payload")
      (bytes_of_string "forged") (Some "protocol") "1" "peer" w
    ≠ Returns (true, None) w.
Proof.
  intros K ctx w. split; [reflexivity|].
  destruct (signature_round_trip K ctx w
              (bytes_of_string "payload") (Some "protocol") "1" "peer" eq_refl)
    as (sig & err & Hcreate & Herr & Hsig & _ & Haccept & Hverify).
  assert (Hnone : err = None) by (apply Herr; repeat split; discriminate).
  rewrite (Hsig Hnone), Hnone in Hcreate.
  split; [exact Hcreate|]. split.
  - apply (Haccept _ (Hsig Hnone)).
  - intros Hforged. apply Hverify in Hforged. discriminate Hforged.
Defined.

End ConcreteLast.
